(** * Verification of the static front-end widgets

    A shallow embedding of the four widgets of the repository
    ([js/theme.js], [js/gallery.js], [js/knowledgeCheck.js] and the
    knowledge-check list manager) together with the properties their
    specification states about them.

    Conventions of the embedding.
    - A JavaScript string is a [string]: a sequence of code units, each
      below 256 (the Latin-1 range).  On that range [toLowerCase] and the
      code-unit order used by the default [Array.prototype.sort] are exact.
    - A JavaScript number that is used as an index or an id is a [Z].
    - An object used as a dictionary is a [gmap]; an array is a [list],
      read with [!!] and updated in place with [<[ i := x ]>].
    - The DOM is represented by the values the scripts write into it.
    - A function whose body can raise a [TypeError] returns an [outcome]:
      the state it leaves behind, tagged with how the call ended. *)

From stdpp Require Import gmap strings list sorting.
From Stdlib Require Import ZArith Ascii.

#[local] Open Scope Z_scope.

(** How a call ends: it returns, or an exception escapes it.  Either way
    the mutations made so far stay in the state. *)
Inductive outcome (S : Type) : Type :=
| Returned (s : S)
| Threw (s : S).
Arguments Returned {S} s.
Arguments Threw {S} s.

Definition final {S : Type} (o : outcome S) : S :=
  match o with Returned s => s | Threw s => s end.

Definition returned {S : Type} (o : outcome S) : bool :=
  match o with Returned _ => true | Threw _ => false end.

(** ** Built-in string and array operations *)

Module Js.

(** [c.toLowerCase()] on one Latin-1 code unit: [A-Z], [À-Ö] and [Ø-Þ]
    move up by 32, every other unit is its own lower case. *)
Definition lower_unit (c : ascii) : ascii :=
  let n := N_of_ascii c in
  if ((65 <=? n) && (n <=? 90)
      || (192 <=? n) && (n <=? 214)
      || (216 <=? n) && (n <=? 222))%N
  then ascii_of_N (n + 32) else c.

(** [s.toLowerCase()] *)
Fixpoint toLowerCase (s : string) : string :=
  match s with
  | EmptyString => EmptyString
  | String c s' => String (lower_unit c) (toLowerCase s')
  end.

(** [s.includes(sub)] *)
Fixpoint includes (s sub : string) : bool :=
  if String.prefix sub s then true
  else match s with
       | EmptyString => false
       | String _ s' => includes s' sub
       end.

(** [s.indexOf(sub)] on strings, counting from [n]; [-1] when absent. *)
Fixpoint str_indexOf_from (n : Z) (s sub : string) : Z :=
  if String.prefix sub s then n
  else match s with
       | EmptyString => -1
       | String _ s' => str_indexOf_from (n + 1) s' sub
       end.

Definition str_indexOf (s sub : string) : Z := str_indexOf_from 0 s sub.

(** [a.indexOf(x)] on an array of strings (strict equality). *)
Fixpoint arr_indexOf_from (n : Z) (a : list string) (x : string) : Z :=
  match a with
  | [] => -1
  | y :: a' => if String.eqb y x then n else arr_indexOf_from (n + 1) a' x
  end.

Definition arr_indexOf (a : list string) (x : string) : Z :=
  arr_indexOf_from 0 a x.

(** [a[i]] for a number [i]: [undefined] outside the array. *)
Definition at_index {A : Type} (a : list A) (i : Z) : option A :=
  if i <? 0 then None else a !! Z.to_nat i.

(** [Array.prototype.sort(cmp)].  ECMAScript requires the sort to be
    stable; it is modelled by the stable insertion sort: an element is
    moved right past exactly the elements it compares greater than. *)
Section Sort.
Context {A : Type} (cmp : A → A → Z).

Fixpoint sort_insert (x : A) (l : list A) : list A :=
  match l with
  | [] => [x]
  | y :: l' => if cmp x y <=? 0 then x :: y :: l' else y :: sort_insert x l'
  end.

Fixpoint array_sort (l : list A) : list A :=
  match l with
  | [] => []
  | x :: l' => sort_insert x (array_sort l')
  end.

(** [a] may stay in front of [b]. *)
Definition cmp_le (a b : A) : Prop := cmp a b ≤ 0.
End Sort.

(** The comparison [sort()] uses when it is given no comparator: the
    code-unit order of the two strings. *)
Definition default_compare (x y : string) : Z :=
  match String.compare x y with
  | Lt => -1
  | Eq => 0
  | Gt => 1
  end.

(** [[...new Set(a)]]: the distinct elements in order of first
    occurrence. *)
Fixpoint set_add (seen : list string) (x : string) : list string :=
  match seen with
  | [] => [x]
  | y :: seen' => if String.eqb y x then seen else y :: set_add seen' x
  end.

Definition set_of_array (a : list string) : list string :=
  fold_left set_add a [].

(** [s.split(c)] for a one-character separator [c]: the pieces between
    the separators, at least one piece. *)
Fixpoint split_on (sep : ascii) (s : string) : list string :=
  match s with
  | EmptyString => [EmptyString]
  | String c s' =>
      if Ascii.eqb c sep then EmptyString :: split_on sep s'
      else match split_on sep s' with
           | [] => [String c EmptyString]
           | piece :: pieces => String c piece :: pieces
           end
  end.

(** [a.pop()] as a value: the last element, [undefined] for no element. *)
Definition pop_value {A : Type} (a : list A) : option A := last a.

(** [s.replace(/\n/g, '<br>')] *)
Fixpoint newlines_to_br (s : string) : string :=
  match s with
  | EmptyString => EmptyString
  | String c s' =>
      if Ascii.eqb c "010"%char then ("<br>" ++ newlines_to_br s')%string
      else String c (newlines_to_br s')
  end.

End Js.

(** ** [js/theme.js] *)

Module Theme.

(** The two places the script reads and writes: the [data-theme]
    attribute of the document element and the [theme] key of local
    storage.  Both are absent ([None]) or hold a string. *)
Record env : Type := mkEnv {
  data_theme : option string;
  stored_theme : option string;
  toggle_listener : bool
}.

(** [localStorage.getItem('theme') || 'light'] *)
Definition saved_or_light (stored : option string) : string :=
  match stored with
  | None => "light"
  | Some s => if String.eqb s "" then "light" else s
  end.

Definition initTheme (themeToggle_exists : bool) (e : env) : env :=
  let currentTheme := saved_or_light (stored_theme e) in
  {| data_theme := Some currentTheme;
     stored_theme := stored_theme e;
     toggle_listener :=
       if themeToggle_exists then true else toggle_listener e |}.

(** [currentTheme === 'light'] where [currentTheme] may be [null]. *)
Definition is_light (t : option string) : bool :=
  match t with
  | Some s => String.eqb s "light"
  | None => false
  end.

Definition toggleTheme (e : env) : env :=
  let currentTheme := data_theme e in
  let newTheme := if is_light currentTheme then "dark" else "light" in
  {| data_theme := Some newTheme;
     stored_theme := Some newTheme;
     toggle_listener := toggle_listener e |}.

Definition recognized (t : option string) : Prop :=
  t = Some "light" ∨ t = Some "dark".

End Theme.

(** ** [js/gallery.js] *)

Module Gallery.

(** One image of a note, as the manifest lists it. *)
Record manifest_image : Type := mkManifestImage {
  mi_name : string;
  mi_file : string
}.

(** One note of the manifest.  [hasImages] is the truth value of the
    field ([false] when the note has no such field); [images] may be
    missing. *)
Record note : Type := mkNote {
  note_folder : string;
  note_title : string;
  hasImages : bool;
  images : option (list manifest_image)
}.

Record manifest : Type := mkManifest { notes : list note }.

Record ImageEntry : Type := mkImageEntry {
  name : string;
  file : string;
  folder : string
}.

(** What the script writes into the [#gallery] container. *)
Inductive gallery_view : Type :=
| NotRendered
| NoImagesFound
| Cards (cards : list (nat * ImageEntry))
| LoadError.

(** The header the script sets while loading. *)
Inductive header_text : Type :=
| HeaderInitial
| HeaderAllImages
| HeaderFolder (title : string).

(** The text of [#imageCount]: a number and the noun that follows it. *)
Record count_text : Type := mkCount { count_n : nat; count_noun : string }.

Record lightbox : Type := mkLightbox {
  lb_active : bool;
  lb_src : string;
  lb_name : string;
  lb_counter : option (Z * nat)
}.

Record state : Type := mkState {
  allImages : list ImageEntry;
  currentImageIndex : Z;
  filteredImages : list ImageEntry;
  gallery : gallery_view;
  imageCount : option count_text;
  header : header_text;
  lb : lightbox
}.

Definition initial : state :=
  {| allImages := [];
     currentImageIndex := 0;
     filteredImages := [];
     gallery := NotRendered;
     imageCount := None;
     header := HeaderInitial;
     lb := mkLightbox false "" "" None |}.

(** The object literal both branches of [loadImages] build. *)
Definition entry_of (n : note) (img : manifest_image) : ImageEntry :=
  {| name := mi_name img;
     file := (note_folder n ++ "/" ++ mi_file img)%string;
     folder := note_title n |}.

(** [note.hasImages && note.images] with the array it guards. *)
Definition note_images (n : note) : option (list manifest_image) :=
  if hasImages n then images n else None.

Definition loadGallery (st : state) : state :=
  match filteredImages st with
  | [] =>
      {| allImages := allImages st;
         currentImageIndex := currentImageIndex st;
         filteredImages := filteredImages st;
         gallery := NoImagesFound;
         imageCount := Some (mkCount 0 "images");
         header := header st;
         lb := lb st |}
  | _ :: _ =>
      let n := length (filteredImages st) in
      {| allImages := allImages st;
         currentImageIndex := currentImageIndex st;
         filteredImages := filteredImages st;
         gallery := Cards (imap (λ index img, (index, img)) (filteredImages st));
         imageCount :=
           Some (mkCount n (if Nat.eqb n 1 then "image" else "images"));
         header := header st;
         lb := lb st |}
  end.

(** [folderParam === 'all'] where [folderParam] is [null] when the query
    string has no [folder]. *)
Definition is_all (folderParam : option string) : bool :=
  match folderParam with
  | Some s => String.eqb s "all"
  | None => false
  end.

(** [n.folder === folderParam] *)
Definition folder_matches (folderParam : option string) (n : note) : bool :=
  match folderParam with
  | Some s => String.eqb (note_folder n) s
  | None => false
  end.

(** The images one note contributes in the [all] branch. *)
Definition all_branch_entries (n : note) : list ImageEntry :=
  match note_images n with
  | Some imgs => entry_of n <$> imgs
  | None => []
  end.

(** [loadImages]; [response] is the parsed manifest, or [None] when the
    fetch or the parse fails and control reaches the [catch]. *)
Definition loadImages (response : option manifest)
    (folderParam : option string) (st : state) : state :=
  match response with
  | None =>
      {| allImages := allImages st;
         currentImageIndex := currentImageIndex st;
         filteredImages := filteredImages st;
         gallery := LoadError;
         imageCount := imageCount st;
         header := header st;
         lb := lb st |}
  | Some data =>
      let '(all', header') :=
        if is_all folderParam then
          (allImages st ++ flat_map all_branch_entries (notes data),
           HeaderAllImages)
        else
          match List.find (folder_matches folderParam) (notes data) with
          | Some n =>
              match note_images n with
              | Some imgs => (entry_of n <$> imgs, HeaderFolder (note_title n))
              | None => (allImages st, header st)
              end
          | None => (allImages st, header st)
          end in
      loadGallery
        {| allImages := all';
           currentImageIndex := currentImageIndex st;
           filteredImages := all';
           gallery := gallery st;
           imageCount := imageCount st;
           header := header';
           lb := lb st |}
  end.

(** The predicate of [filterImages], [search] already lower-cased. *)
Definition image_matches (search : string) (img : ImageEntry) : bool :=
  Js.includes (Js.toLowerCase (name img)) search
  || Js.includes (Js.toLowerCase (folder img)) search.

(** [filterImages]; [searchBox] is the value of the search box. *)
Definition filterImages (searchBox : string) (st : state) : state :=
  let search := Js.toLowerCase searchBox in
  loadGallery
    {| allImages := allImages st;
       currentImageIndex := currentImageIndex st;
       filteredImages := List.filter (image_matches search) (allImages st);
       gallery := gallery st;
       imageCount := imageCount st;
       header := header st;
       lb := lb st |}.

Definition with_index (i : Z) (st : state) : state :=
  {| allImages := allImages st;
     currentImageIndex := i;
     filteredImages := filteredImages st;
     gallery := gallery st;
     imageCount := imageCount st;
     header := header st;
     lb := lb st |}.

Definition with_lightbox (l : lightbox) (st : state) : state :=
  {| allImages := allImages st;
     currentImageIndex := currentImageIndex st;
     filteredImages := filteredImages st;
     gallery := gallery st;
     imageCount := imageCount st;
     header := header st;
     lb := l |}.

(** [openLightbox]: the index is stored first; reading [img.file] of a
    missing entry throws. *)
Definition openLightbox (index : Z) (st : state) : outcome state :=
  let st1 := with_index index st in
  match Js.at_index (filteredImages st1) index with
  | None => Threw st1
  | Some img =>
      Returned
        (with_lightbox
           (mkLightbox true (file img) (name img)
              (Some (index + 1, length (filteredImages st1))))
           st1)
  end.

(** [closeLightbox]; [event_target] is [None] when the function is called
    without an event, and the id of the clicked element otherwise. *)
Definition closeLightbox (event_target : option string) (st : state) : state :=
  let closes :=
    match event_target with
    | None => true
    | Some id => String.eqb id "lightbox"
    end in
  if closes then
    with_lightbox
      (mkLightbox false (lb_src (lb st)) (lb_name (lb st)) (lb_counter (lb st)))
      st
  else st.

(** The two wrap-around tests of [navigateImage], in source order. *)
Definition wrap_index (len : Z) (i : Z) : Z :=
  let i1 := if i <? 0 then len - 1 else i in
  if i1 >=? len then 0 else i1.

Definition navigateImage (direction : Z) (st : state) : outcome state :=
  let len := Z.of_nat (length (filteredImages st)) in
  let i := wrap_index len (currentImageIndex st + direction) in
  let st1 := with_index i st in
  match Js.at_index (filteredImages st1) i with
  | None => Threw st1
  | Some img =>
      Returned
        (with_lightbox
           (mkLightbox (lb_active (lb st1)) (file img) (name img)
              (Some (i + 1, length (filteredImages st1))))
           st1)
  end.

(** The keyboard handler installed by [setupKeyboardNavigation]. *)
Definition on_keydown (key : string) (st : state) : outcome state :=
  if lb_active (lb st) then
    if String.eqb key "Escape" then Returned (closeLightbox None st)
    else if String.eqb key "ArrowLeft" then navigateImage (-1) st
    else if String.eqb key "ArrowRight" then navigateImage 1 st
    else Returned st
  else Returned st.

(** *** Sample manifests *)

Definition aws_note : note :=
  mkNote "aws" "AWS" true (Some [mkManifestImage "diagram" "d.png"]).

Definition two_images : manifest :=
  mkManifest
    [mkNote "aws" "AWS" true
       (Some [mkManifestImage "vpc" "vpc.png";
              mkManifestImage "iam" "iam.png"])].

(** The note [{folder:"aws", title:"AWS", images:[{name:"diagram",
    file:"d.png"}]}]: it lists an image but does not declare
    [hasImages]. *)
Definition undeclared_note : note :=
  mkNote "aws" "AWS" false (Some [mkManifestImage "diagram" "d.png"]).

(** *** Download and view mode *)

(** The link [downloadImage] builds and clicks. *)
Record download_link : Type := mkLink {
  href : string;
  download : option string
}.

(** [downloadImage]: [None] when [currentImageIndex] names no entry and
    reading [img.file] throws. *)
Definition downloadImage (st : state) : option download_link :=
  match Js.at_index (filteredImages st) (currentImageIndex st) with
  | None => None
  | Some img =>
      Some {| href := file img;
              download := Js.pop_value (Js.split_on "/"%char (file img)) |}
  end.

(** The elements [setView] touches: the [.view-btn] buttons (by element
    id), the elements that carry the class [active], and whether
    [#gallery] carries [list-view]. *)
Record view_dom : Type := mkViewDom {
  view_btns : list nat;
  active_els : gset nat;
  list_view : bool
}.

Definition setView (view : string) (button : nat) (d : view_dom) : view_dom :=
  {| view_btns := view_btns d;
     active_els := (active_els d ∖ list_to_set (view_btns d)) ∪ {[button]};
     list_view := String.eqb view "list" |}.

(** [n] calls of [navigateImage(1)] in a row, as [n] presses of
    ArrowRight make while the lightbox is open. *)
Definition press_right (n : nat) (st : state) : state :=
  Nat.iter n (λ s, final (navigateImage 1 s)) st.

(** A second note, without images declared. *)
Definition undeclared_docs : note :=
  mkNote "docs" "Docs" false (Some [mkManifestImage "cover" "cover.png"]).

End Gallery.

(** ** [js/knowledgeCheck.js] *)

Module KnowledgeCheck.

Record OptionEntry : Type := mkOption {
  o_id : string;
  o_text : string;
  isCorrect : bool
}.

(** [displayNumber] is absent until [shuffleQuestions] assigns it. *)
Record question : Type := mkQuestion {
  id : Z;
  q_text : string;
  multiSelect : bool;
  options : list OptionEntry;
  displayNumber : option nat
}.

Record kc_data : Type := mkData { questions : option (list question) }.

(** An entry of [state.selectedAnswers]: an option id (single-select) or
    an array of option ids (multi-select). *)
Inductive answer : Type :=
| Single (optionId : string)
| Multi (optionIds : list string).

Record engine : Type := mkEngine {
  data : option kc_data;
  selectedAnswers : gmap Z answer
}.

(** The engine as its constructor leaves it, once [data] is set. *)
Definition init (d : option kc_data) : engine :=
  {| data := d; selectedAnswers := ∅ |}.

(** *** Shuffling *)

(** One value of [Math.random()]: the number [num / (num + slack + 1)],
    which lies in the interval from 0 (included) to 1 (excluded). *)
Record draw : Type := mkDraw { num : nat; slack : nat }.

(** [Math.floor(r * n)] *)
Definition floor_scaled (r : draw) (n : nat) : nat :=
  (num r * n / (num r + slack r + 1))%nat.

(** [[a[i], a[j]] = [a[j], a[i]]].  Both indices are inside the array
    wherever the shuffle calls it. *)
Definition swap (i j : nat) (a : list question) : list question :=
  match a !! i, a !! j with
  | Some qi, Some qj => <[j := qi]> (<[i := qj]> a)
  | _, _ => a
  end.

(** The [for] loop of [shuffleQuestions], entered with counter [i];
    [rnd] is the sequence of values the calls to [Math.random] return. *)
Fixpoint shuffle_loop (rnd : nat → draw) (i : nat) (a : list question)
    : list question :=
  match i with
  | O => a
  | S i' =>
      let j := floor_scaled (rnd O) (i + 1) in
      shuffle_loop (λ k, rnd (S k)) i' (swap i j a)
  end.

Definition set_displayNumber (n : nat) (q : question) : question :=
  {| id := id q;
     q_text := q_text q;
     multiSelect := multiSelect q;
     options := options q;
     displayNumber := Some n |}.

(** The [forEach] that numbers the questions. *)
Definition renumber (a : list question) : list question :=
  imap (λ index q, set_displayNumber (index + 1) q) a.

Definition shuffle_array (rnd : nat → draw) (a : list question)
    : list question :=
  renumber (shuffle_loop rnd (length a - 1) a).

Definition shuffleQuestions (rnd : nat → draw) (e : engine) : engine :=
  match data e with
  | Some {| questions := Some qs |} =>
      {| data := Some {| questions := Some (shuffle_array rnd qs) |};
         selectedAnswers := selectedAnswers e |}
  | _ => e
  end.

(** *** Rendering *)

(** The test [renderOption] makes to decide whether an option is
    selected. *)
Definition isSelected (isMultiSelect : bool) (selected : option answer)
    (optionId : string) : bool :=
  if isMultiSelect then
    match selected with
    | Some (Multi os) => existsb (λ o, String.eqb o optionId) os
    | _ => false
    end
  else
    match selected with
    | Some (Single s) => String.eqb s optionId
    | _ => false
    end.

Inductive mark : Type := Neutral | Correct | Incorrect.

Record option_view : Type := mkOptionView {
  ov_id : string;
  ov_mark : mark;
  ov_explained : bool
}.

Definition renderOption (isMultiSelect : bool) (selected : option answer)
    (o : OptionEntry) : option_view :=
  let sel := isSelected isMultiSelect selected (o_id o) in
  {| ov_id := o_id o;
     ov_mark := if sel then (if isCorrect o then Correct else Incorrect)
                else Neutral;
     ov_explained := sel |}.

Record question_view : Type := mkQuestionView {
  qv_id : Z;
  qv_number : Z;
  qv_select_two : bool;
  qv_options : list option_view
}.

Definition renderQuestion (e : engine) (q : question) : question_view :=
  let selected := selectedAnswers e !! id q in
  {| qv_id := id q;
     qv_number :=
       match displayNumber q with
       | Some (S n) => Z.of_nat (S n)
       | _ => id q
       end;
     qv_select_two := multiSelect q;
     qv_options := renderOption (multiSelect q) selected <$> options q |}.

(** *** Selection *)

(** [!v] for an entry of [selectedAnswers]. *)
Definition falsy (v : option answer) : bool :=
  match v with
  | None => true
  | Some (Single s) => String.eqb s ""
  | Some (Multi _) => false
  end.

Definition with_answers (sa : gmap Z answer) (e : engine) : engine :=
  {| data := data e; selectedAnswers := sa |}.

(** [renderSpecificQuestion] changes the page only; it throws when the
    question list is not there to search. *)
Definition renderSpecificQuestion (questionId : Z) (e : engine)
    : outcome engine :=
  match data e with
  | Some {| questions := Some _ |} => Returned e
  | _ => Threw e
  end.

(** The multi-select branch on the array [selected]: [splice] the id
    out when [indexOf] finds it, else [push] it while fewer than two ids
    are held. *)
Definition multi_step (selected : list string) (optionId : string)
    : list string :=
  let index := Js.arr_indexOf selected optionId in
  if index >? -1 then delete (Z.to_nat index) selected
  else if (length selected <? 2)%nat then selected ++ [optionId]
  else selected.

Definition selectOption (questionId : Z) (optionId : string)
    (isMultiSelect : bool) (e : engine) : outcome engine :=
  if isMultiSelect then
    let sa1 :=
      if falsy (selectedAnswers e !! questionId)
      then <[questionId := Multi []]> (selectedAnswers e)
      else selectedAnswers e in
    match sa1 !! questionId with
    | Some (Multi selected) =>
        renderSpecificQuestion questionId
          (with_answers
             (<[questionId := Multi (multi_step selected optionId)]> sa1) e)
    | Some (Single s) =>
        (* a string has neither [splice] nor [push] *)
        let index := Js.str_indexOf s optionId in
        if index >? -1 then Threw (with_answers sa1 e)
        else if (String.length s <? 2)%nat then Threw (with_answers sa1 e)
        else renderSpecificQuestion questionId (with_answers sa1 e)
    | None => Threw (with_answers sa1 e)
    end
  else
    renderSpecificQuestion questionId
      (with_answers (<[questionId := Single optionId]> (selectedAnswers e)) e).

(** One click: the arguments the listener passes to [selectOption]. *)
Record click : Type := mkClick {
  c_question : Z;
  c_option : string;
  c_multi : bool
}.

(** A sequence of clicks; an exception ends one handler, not the page. *)
Definition run (cs : list click) (e : engine) : engine :=
  fold_left
    (λ e c, final (selectOption (c_question c) (c_option c) (c_multi c) e))
    cs e.

(** Every array in [selectedAnswers] holds at most two ids, all
    different. *)
Definition capped (sa : gmap Z answer) : Prop :=
  ∀ q os, sa !! q = Some (Multi os) → (length os ≤ 2)%nat ∧ NoDup os.

(** *** Sample quiz *)

Definition sample_questions : list question :=
  [mkQuestion 1 "Which service runs virtual machines?" false
     [mkOption "A" "EC2" true; mkOption "B" "S3" false] None;
   mkQuestion 2 "Which two are storage services?" true
     [mkOption "A" "S3" true; mkOption "B" "EBS" true;
      mkOption "C" "IAM" false] None;
   mkQuestion 3 "Which service manages identities?" false
     [mkOption "A" "IAM" true; mkOption "B" "VPC" false] None].

Definition sample_data : option kc_data :=
  Some {| questions := Some sample_questions |}.

(** A source of random values: 1/2, 0, 2/3, 1/2, 0, 2/3, ... *)
Definition sample_rnd (k : nat) : draw :=
  match (k mod 3)%nat with
  | O => mkDraw 1 0
  | 1%nat => mkDraw 0 0
  | _ => mkDraw 2 0
  end.

(** The sample quiz after one click on option A of question 1. *)
Definition answered_A : engine :=
  run [mkClick 1 "A" false] (init sample_data).

(** *** The page *)

(** What the engine writes into its container. *)
Inductive container_view : Type :=
| Untouched
| ErrorPanel (jsonUrl : string)
| NoQuestions
| QuestionCards (cards : list question_view).

Record page : Type := mkPage {
  eng : engine;
  container : container_view
}.

(** [renderQuestions] *)
Definition renderQuestions (p : page) : page :=
  match data (eng p) with
  | Some {| questions := Some qs |} =>
      {| eng := eng p;
         container := QuestionCards (renderQuestion (eng p) <$> qs) |}
  | _ => {| eng := eng p; container := NoQuestions |}
  end.

(** [loadFromJSON]; [response] is the parsed manifest, or [None] when
    the fetch fails, the response is not OK or the body does not
    parse. *)
Definition loadFromJSON (response : option kc_data) (jsonUrl : string)
    (rnd : nat → draw) (p : page) : page :=
  match response with
  | None => {| eng := eng p; container := ErrorPanel jsonUrl |}
  | Some d =>
      renderQuestions
        {| eng := shuffleQuestions rnd
                    {| data := Some d;
                       selectedAnswers := selectedAnswers (eng p) |};
           container := container p |}
  end.

(** [questionCard.replaceWith(newQuestionCard)] for the first card that
    carries the question id. *)
Fixpoint replace_first_card (questionId : Z) (new : question_view)
    (cards : list question_view) : list question_view :=
  match cards with
  | [] => []
  | c :: cards' =>
      if qv_id c =? questionId then new :: cards'
      else c :: replace_first_card questionId new cards'
  end.

(** What [renderSpecificQuestion] does to the container when it does
    not throw: nothing without the question or without its card, else
    the card is replaced by a fresh rendering of the question. *)
Definition rerender (questionId : Z) (e : engine) (c : container_view)
    : container_view :=
  match data e with
  | Some {| questions := Some qs |} =>
      match List.find (λ q, id q =? questionId) qs with
      | None => c
      | Some question =>
          match c with
          | QuestionCards cards =>
              if existsb (λ card, qv_id card =? questionId) cards
              then QuestionCards
                     (replace_first_card questionId
                        (renderQuestion e question) cards)
              else c
          | _ => c
          end
      end
  | _ => c
  end.

(** A click on an option, as the listeners handle it: [selectOption],
    whose last step re-renders the one card unless something threw
    before. *)
Definition click_option (c : click) (p : page) : page :=
  match selectOption (c_question c) (c_option c) (c_multi c) (eng p) with
  | Returned e' =>
      {| eng := e'; container := rerender (c_question c) e' (container p) |}
  | Threw e' => {| eng := e'; container := container p |}
  end.

Definition clicks (cs : list click) (p : page) : page :=
  fold_left (λ p c, click_option c p) cs p.

(** The page before anything is loaded. *)
Definition blank : page := {| eng := init None; container := Untouched |}.

(** *** Explanations *)

(** The fields [renderExplanation] looks at, in the order it looks at
    them. *)
Inductive section : Type :=
| Summary | KeyPoints | Examples | AdditionalInfo | Why | Analogy
| Comparison | WhatItDoes | WhatItDoesNot | SpeedComparison | WhyFast
| KeyFunctions | KeyFeatures | Characteristics | WhatRAMStores
| Implications | HowItWorks | WhatIsEC2 | HowItRelates | Architecture
| KeyDistinction | Confusion | Identification | PerformanceImpact
| LearnMore.

Record link : Type := mkLink { l_title : string; l_url : string }.

(** An explanation as the manifest gives it; every field may be
    missing. *)
Record Explanation : Type := mkExplanation {
  summary : option string;
  keyPoints : option (list string);
  examples : option (list string);
  additionalInfo : option string;
  why : option string;
  analogy : option string;
  comparison : option string;
  whatItDoes : option (list string);
  whatItDoesNot : option (list string);
  speedComparison : option (list string);
  whyFast : option (list string);
  keyFunctions : option (list string);
  keyFeatures : option (list string);
  characteristics : option (list string);
  whatRAMStores : option (list string);
  implications : option (list string);
  howItWorks : option (list string);
  whatIsEC2 : option (list string);
  howItRelates : option (list string);
  architecture : option string;
  keyDistinction : option string;
  confusion : option string;
  identification : option string;
  performanceImpact : option string;
  learnMore : option (list link)
}.

(** One block of the rendered explanation. *)
Inductive block : Type :=
| TextBlock (sec : section) (body : string)
| ListBlock (sec : section) (items : list string)
| LinksBlock (links : list link).

Definition block_section (b : block) : section :=
  match b with
  | TextBlock sec _ => sec
  | ListBlock sec _ => sec
  | LinksBlock _ => LearnMore
  end.

(** [if (exp.f) html += ...] for a text field: a missing or empty
    string adds nothing. *)
Definition text_block (sec : section) (v : option string) : list block :=
  match v with
  | Some s => if String.eqb s "" then [] else [TextBlock sec s]
  | None => []
  end.

(** [if (exp.f && exp.f.length > 0) html += ...] for a list field. *)
Definition list_block (sec : section) (v : option (list string))
    : list block :=
  match v with
  | Some (x :: l) => [ListBlock sec (x :: l)]
  | _ => []
  end.

Definition links_block (v : option (list link)) : list block :=
  match v with
  | Some (x :: l) => [LinksBlock (x :: l)]
  | _ => []
  end.

Record explanation_view : Type := mkExplanationView {
  ev_correct : bool;
  ev_blocks : list block
}.

Definition renderExplanation (isCorrect : bool) (exp : Explanation)
    : explanation_view :=
  {| ev_correct := isCorrect;
     ev_blocks :=
       text_block Summary (summary exp)
       ++ list_block KeyPoints (keyPoints exp)
       ++ list_block Examples (examples exp)
       ++ text_block AdditionalInfo (additionalInfo exp)
       ++ text_block Why (why exp)
       ++ text_block Analogy (analogy exp)
       ++ text_block Comparison (Js.newlines_to_br <$> comparison exp)
       ++ list_block WhatItDoes (whatItDoes exp)
       ++ list_block WhatItDoesNot (whatItDoesNot exp)
       ++ list_block SpeedComparison (speedComparison exp)
       ++ list_block WhyFast (whyFast exp)
       ++ list_block KeyFunctions (keyFunctions exp)
       ++ list_block KeyFeatures (keyFeatures exp)
       ++ list_block Characteristics (characteristics exp)
       ++ list_block WhatRAMStores (whatRAMStores exp)
       ++ list_block Implications (implications exp)
       ++ list_block HowItWorks (howItWorks exp)
       ++ list_block WhatIsEC2 (whatIsEC2 exp)
       ++ list_block HowItRelates (howItRelates exp)
       ++ text_block Architecture (architecture exp)
       ++ text_block KeyDistinction (keyDistinction exp)
       ++ text_block Confusion (confusion exp)
       ++ text_block Identification (identification exp)
       ++ text_block PerformanceImpact (performanceImpact exp)
       ++ links_block (learnMore exp) |}.

(** The order of the sections of [renderExplanation]. *)
Definition section_order : list section :=
  [Summary; KeyPoints; Examples; AdditionalInfo; Why; Analogy; Comparison;
   WhatItDoes; WhatItDoesNot; SpeedComparison; WhyFast; KeyFunctions;
   KeyFeatures; Characteristics; WhatRAMStores; Implications; HowItWorks;
   WhatIsEC2; HowItRelates; Architecture; KeyDistinction; Confusion;
   Identification; PerformanceImpact; LearnMore].

(** An explanation without any field. *)
Definition no_explanation : Explanation :=
  mkExplanation None None None None None None None None None None None None
    None None None None None None None None None None None None None.

(** An explanation with a summary, a comparison and a link. *)
Definition explained : Explanation :=
  mkExplanation (Some "EC2 runs virtual machines.") None None None None None
    (Some "EC2: compute") None None None None None None None None None None
    None None None None None None None
    (Some [mkLink "EC2 docs" "https://docs.aws.amazon.com/ec2/"]).

End KnowledgeCheck.

(** ** The knowledge-check list manager *)

Module KCList.

Record CatalogEntry : Type := mkEntry {
  title : string;
  topic : string;
  file : string
}.

(** What the script writes into [#kcListContainer]. *)
Inductive list_view : Type :=
| NotRendered
| NoneFound
| KcCards (cards : list CatalogEntry)
| LoadError.

(** An [<option>] of the topic dropdown: its value and its text. *)
Record dropdown_option : Type := mkDropdownOption {
  value : string;
  textContent : string
}.

Record state : Type := mkState {
  kcData : list CatalogEntry;
  filteredData : list CatalogEntry;
  topicFilter : list dropdown_option;
  container : list_view
}.

Definition initial : state :=
  {| kcData := []; filteredData := []; topicFilter := [];
     container := NotRendered |}.

Definition renderKCList (st : state) : state :=
  {| kcData := kcData st;
     filteredData := filteredData st;
     topicFilter := topicFilter st;
     container :=
       match filteredData st with
       | [] => NoneFound
       | _ :: _ => KcCards (filteredData st)
       end |}.

(** The array [topics] of [populateTopicFilter]. *)
Definition topics_of (kcs : list CatalogEntry) : list string :=
  Js.array_sort Js.default_compare (Js.set_of_array (topic <$> kcs)).

Definition populateTopicFilter (st : state) : state :=
  let topics := topics_of (kcData st) in
  {| kcData := kcData st;
     filteredData := filteredData st;
     topicFilter :=
       mkDropdownOption "" "All Topics"
       :: ((λ t, mkDropdownOption t t) <$> topics);
     container := container st |}.

Section WithLocale.
(** [a.localeCompare(b)] depends on the locale of the browser. *)
Variable localeCompare : string → string → Z.

(** [x || y] on numbers. *)
Definition num_or (x y : Z) : Z := if x =? 0 then y else x.

(** The comparator [sortKCs] passes to [sort]. *)
Definition compareKCs (sortValue : string) (a b : CatalogEntry) : Z :=
  if String.eqb sortValue "title-asc" then
    localeCompare (title a) (title b)
  else if String.eqb sortValue "title-desc" then
    localeCompare (title b) (title a)
  else if String.eqb sortValue "topic-asc" then
    num_or (localeCompare (topic a) (topic b))
           (localeCompare (title a) (title b))
  else if String.eqb sortValue "topic-desc" then
    num_or (localeCompare (topic b) (topic a))
           (localeCompare (title a) (title b))
  else 0.

(** [sortKCs]; [sortValue] is the value of [#sortSelect]. *)
Definition sortKCs (sortValue : string) (st : state) : state :=
  renderKCList
    {| kcData := kcData st;
       filteredData := Js.array_sort (compareKCs sortValue) (filteredData st);
       topicFilter := topicFilter st;
       container := container st |}.

Definition kc_matches (searchTerm topicValue : string) (kc : CatalogEntry)
    : bool :=
  let matchesSearch :=
    Js.includes (Js.toLowerCase (title kc)) searchTerm
    || Js.includes (Js.toLowerCase (topic kc)) searchTerm in
  let matchesTopic :=
    String.eqb topicValue "" || String.eqb (topic kc) topicValue in
  matchesSearch && matchesTopic.

Definition filterKCs (searchInput topicValue sortValue : string)
    (st : state) : state :=
  let searchTerm := Js.toLowerCase searchInput in
  sortKCs sortValue
    {| kcData := kcData st;
       filteredData :=
         List.filter (kc_matches searchTerm topicValue) (kcData st);
       topicFilter := topicFilter st;
       container := container st |}.

(** What the request for the catalog gives [loadKCList]: nothing to
    read [knowledgeChecks] from (the fetch fails, the response is not
    OK, the body does not parse), a parsed body without the array
    [knowledgeChecks], or the array. *)
Inductive catalog_response : Type :=
| NoBody
| NoCatalog
| Catalog (kcs : list CatalogEntry).

(** The page: its lists and views, and whether [kcData] has been left
    [undefined]; while it is, the field [kcData] of [lists] is not what
    the variable holds. *)
Record page : Type := mkPage {
  lists : state;
  kcData_undefined : bool
}.

Definition blank : page := {| lists := initial; kcData_undefined := false |}.

Definition show_load_error (st : state) : state :=
  {| kcData := kcData st;
     filteredData := filteredData st;
     topicFilter := topicFilter st;
     container := LoadError |}.

(** [loadKCList].  The [catch] is entered before [kcData] is assigned
    when there is no body, and after [kcData = data.knowledgeChecks]
    when the body has no such array: spreading the undefined [kcData]
    throws, and [kcData] stays undefined. *)
Definition loadKCList (response : catalog_response) (sortValue : string)
    (p : page) : page :=
  match response with
  | NoBody =>
      {| lists := show_load_error (lists p);
         kcData_undefined := kcData_undefined p |}
  | NoCatalog =>
      {| lists := show_load_error (lists p); kcData_undefined := true |}
  | Catalog kcs =>
      {| lists :=
           sortKCs sortValue
             (populateTopicFilter
                {| kcData := kcs;
                   filteredData := kcs;
                   topicFilter := topicFilter (lists p);
                   container := container (lists p) |});
         kcData_undefined := false |}
  end.

(** [filterKCs] as the page calls it: [kcData.filter] on an undefined
    [kcData] throws before anything is changed. *)
Definition on_filter (searchInput topicValue sortValue : string) (p : page)
    : outcome page :=
  if kcData_undefined p then Threw p
  else Returned
         {| lists := filterKCs searchInput topicValue sortValue (lists p);
            kcData_undefined := false |}.

(** [sortKCs] as the page calls it: it reads [filteredData] only. *)
Definition on_sort (sortValue : string) (p : page) : page :=
  {| lists := sortKCs sortValue (lists p);
     kcData_undefined := kcData_undefined p |}.
End WithLocale.

(** The [case] labels of the comparator. *)
Definition recognized_mode (sortValue : string) : bool :=
  String.eqb sortValue "title-asc" || String.eqb sortValue "title-desc"
  || String.eqb sortValue "topic-asc" || String.eqb sortValue "topic-desc".

(** *** Sample catalogs *)


Definition sample_catalog : list CatalogEntry :=
  [mkEntry "Instances" "EC2" "ec2.json";
   mkEntry "Buckets" "S3" "s3.json";
   mkEntry "AMIs" "EC2" "ami.json"].

(** A catalog whose entries share one topic. *)
Definition same_topic_catalog : list CatalogEntry :=
  [mkEntry "Instances" "EC2" "ec2.json"; mkEntry "AMIs" "EC2" "ami.json"].

End KCList.

(** * Properties *)

(** ** Built-in operations *)

Module JsFacts.

Lemma append_cons (c : ascii) (a b : string) :
  String c a +:+ b = String c (a +:+ b).
Proof. reflexivity. Qed.

Lemma append_empty_r (a : string) : a +:+ "" = a.
Proof. induction a as [|c a IH]; [done|]. by rewrite append_cons, IH. Qed.

Lemma append_assoc (a b c : string) : (a +:+ b) +:+ c = a +:+ (b +:+ c).
Proof.
  induction a as [|x a IH]; [done|]. by rewrite !append_cons, IH.
Qed.

Lemma prefix_iff (a s : string) :
  String.prefix a s = true ↔ ∃ post, s = a +:+ post.
Proof.
  revert s. induction a as [|c a IH]; intros s.
  - split; [|by destruct s]. intros _. by exists s.
  - destruct s as [|d s]; simpl.
    + split; [discriminate|]. intros [post H]. discriminate.
    + destruct (ascii_dec c d) as [->|Hne].
      * rewrite IH. split; intros [post H]; exists post.
        -- by rewrite append_cons, H.
        -- rewrite append_cons in H. congruence.
      * split; [discriminate|]. intros [post H].
        rewrite append_cons in H. congruence.
Qed.

Lemma includes_unfold (s sub : string) :
  Js.includes s sub
  = if String.prefix sub s then true
    else match s with
         | EmptyString => false
         | String _ s' => Js.includes s' sub
         end.
Proof. by destruct s. Qed.

(** [includes] is the substring test. *)
Lemma includes_iff (s sub : string) :
  Js.includes s sub = true ↔ ∃ pre post, s = pre +:+ (sub +:+ post).
Proof.
  induction s as [|c s IH]; rewrite includes_unfold.
  - destruct (String.prefix sub "") eqn:E.
    + split; [|done]. intros _. apply prefix_iff in E as [post H].
      exists "", post. exact H.
    + split; [discriminate|]. intros (pre & post & H).
      destruct pre; [|discriminate].
      assert (String.prefix sub "" = true) as Hp; [|congruence].
      apply prefix_iff. by exists post.
  - destruct (String.prefix sub (String c s)) eqn:E.
    + split; [|done]. intros _. apply prefix_iff in E as [post H].
      exists "", post. exact H.
    + rewrite IH. split.
      * intros (pre & post & H). exists (String c pre), post.
        by rewrite append_cons, H.
      * intros (pre & post & H). destruct pre as [|d pre].
        -- assert (String.prefix sub (String c s) = true) as Hp; [|congruence].
           apply prefix_iff. by exists post.
        -- rewrite append_cons in H. exists pre, post. congruence.
Qed.

Lemma includes_empty (s : string) : Js.includes s "" = true.
Proof. apply includes_iff. by exists "", s. Qed.

(** A string that contains [big] contains every substring of [big]. *)
Lemma includes_trans (s big small : string) :
  Js.includes big small = true → Js.includes s big = true →
  Js.includes s small = true.
Proof.
  rewrite !includes_iff. intros (p1 & q1 & ->) (p2 & q2 & ->).
  exists (p2 +:+ p1), (q1 +:+ q2). by rewrite !append_assoc.
Qed.

Lemma lower_unit_idem (c : ascii) :
  Js.lower_unit (Js.lower_unit c) = Js.lower_unit c.
Proof. destruct c as [[] [] [] [] [] [] [] []]; reflexivity. Qed.

Lemma toLowerCase_idem (s : string) :
  Js.toLowerCase (Js.toLowerCase s) = Js.toLowerCase s.
Proof.
  induction s as [|c s IH]; simpl; [done|]. by rewrite lower_unit_idem, IH.
Qed.

Lemma includes_unit_cons (sep c : ascii) (p : string) :
  Js.includes (String c p) (String sep "")
  = if ascii_dec sep c then true else Js.includes p (String sep "").
Proof.
  rewrite includes_unfold. simpl.
  destruct (ascii_dec sep c); [by destruct p|done].
Qed.

Lemma split_on_not_nil (sep : ascii) (s : string) : Js.split_on sep s ≠ [].
Proof.
  destruct s as [|c s]; simpl; [done|].
  destruct (Ascii.eqb c sep); [done|].
  by destruct (Js.split_on sep s).
Qed.

(** Without a separator the string is its own single piece. *)
Lemma split_on_no_sep (sep : ascii) (s : string) :
  Js.includes s (String sep "") = false → Js.split_on sep s = [s].
Proof.
  induction s as [|c s IH]; [done|].
  rewrite includes_unit_cons. intros Hn. simpl.
  destruct (ascii_dec sep c) as [->|Hne]; [discriminate|].
  destruct (Ascii.eqb_spec c sep) as [->|_]; [done|].
  by rewrite IH.
Qed.

(** The last piece of [a ++ sep ++ f] is the last piece of [f]. *)
Lemma last_split_on_app (sep : ascii) (a f : string) :
  last (Js.split_on sep (a +:+ String sep f)) = last (Js.split_on sep f).
Proof.
  induction a as [|c a IH].
  - simpl. rewrite Ascii.eqb_refl.
    pose proof (split_on_not_nil sep f).
    by destruct (Js.split_on sep f).
  - rewrite append_cons. simpl.
    pose proof (split_on_not_nil sep (a +:+ String sep f)) as Hnn.
    assert (Hcons : ∀ x, last (x :: Js.split_on sep (a +:+ String sep f))
                         = last (Js.split_on sep (a +:+ String sep f))).
    { intros x. by destruct (Js.split_on sep (a +:+ String sep f)). }
    destruct (Ascii.eqb c sep); [by rewrite Hcons|].
    destruct (Js.split_on sep (a +:+ String sep f)) as [|p [|p' ps]] eqn:E;
      [done| |exact IH].
    exfalso. clear -E.
    (* one piece only: the string would hold no separator *)
    revert p E. induction a as [|d a IH]; intros p E.
    + simpl in E. rewrite Ascii.eqb_refl in E.
      pose proof (split_on_not_nil sep f).
      by destruct (Js.split_on sep f).
    + rewrite append_cons in E. simpl in E.
      pose proof (split_on_not_nil sep (a +:+ String sep f)) as Hnn.
      destruct (Ascii.eqb d sep).
      * by destruct (Js.split_on sep (a +:+ String sep f)).
      * destruct (Js.split_on sep (a +:+ String sep f)) as [|q [|q' qs]] eqn:E';
          [done| |discriminate].
        by eapply IH.
Qed.

(** The last piece holds no separator and ends the string: it is the
    whole string, or a separator stands right before it. *)
Lemma last_split_on_spec (sep : ascii) (s : string) :
  ∃ piece, last (Js.split_on sep s) = Some piece
           ∧ Js.includes piece (String sep "") = false
           ∧ (s = piece ∨ ∃ pre, s = pre +:+ String sep piece).
Proof.
  enough (∃ first rest piece,
            Js.split_on sep s = first :: rest
            ∧ last (first :: rest) = Some piece
            ∧ Js.includes piece (String sep "") = false
            ∧ ((rest = [] ∧ s = first)
               ∨ (rest ≠ [] ∧ ∃ pre, s = pre +:+ String sep piece)))
    as (first & rest & piece & -> & Hl & Hn & Hend).
  { exists piece. split; [done|]. split; [done|].
    destruct Hend as [[-> ->]|[_ Hpre]]; [|by right].
    left. simpl in Hl. congruence. }
  induction s as [|c s (first & rest & piece & Hs & Hl & Hn & Hend)].
  - exists "", [], "". repeat split; auto.
  - simpl. rewrite Hs.
    destruct (Ascii.eqb_spec c sep) as [->|Hne].
    + exists "", (first :: rest), piece.
      split; [done|]. split; [exact Hl|]. split; [exact Hn|]. right.
      split; [done|].
      destruct Hend as [[-> ->]|[_ [pre ->]]].
      * simpl in Hl. simplify_eq. by exists "".
      * exists (String sep pre). by rewrite append_cons.
    + destruct Hend as [[-> ->]|[Hrest [pre ->]]].
      * simpl in Hl. simplify_eq. exists (String c piece), [], (String c piece).
        split; [done|]. split; [done|]. split; [|by left].
        rewrite includes_unit_cons.
        destruct (ascii_dec sep c) as [->|_]; [done|exact Hn].
      * exists (String c first), rest, piece.
        split; [done|]. split.
        { destruct rest; [done|exact Hl]. }
        split; [exact Hn|]. right. split; [done|].
        exists (String c pre). by rewrite append_cons.
Qed.

End JsFacts.

(** ** Theme toggle *)

Module ThemeProofs.
Import Theme.

Example toggle_light : toggleTheme (mkEnv (Some "light") (Some "light") true)
                       = mkEnv (Some "dark") (Some "dark") true.
Proof. reflexivity. Qed.

Example toggle_corrupt : toggleTheme (mkEnv (Some "Dark ") (Some "Dark ") true)
                         = mkEnv (Some "light") (Some "light") true.
Proof. reflexivity. Qed.

Lemma is_light_spec (t : option string) :
  is_light t = true ↔ t = Some "light".
Proof.
  destruct t as [s|]; simpl; [|split; discriminate].
  rewrite String.eqb_eq. split; congruence.
Qed.

(** [initTheme] applies whatever non-empty string is stored, without
    checking that it names a theme. *)
Lemma initTheme_unvalidated (b : bool) (e : env) (s : string) :
  stored_theme e = Some s → s ≠ "" → data_theme (initTheme b e) = Some s.
Proof.
  intros Hs Hne. unfold initTheme, saved_or_light; simpl. rewrite Hs.
  destruct (String.eqb s "") eqn:E; [|done].
  apply String.eqb_eq in E. contradiction.
Qed.

(** C9: for every current document theme other than the exact string
    "light" (including "dark", an absent attribute and any unrecognized
    value that [initTheme] carried over from storage), [toggleTheme] sets
    and persists "light"; only the exact value "light" toggles to "dark".
    After one toggle the document and storage hold the same recognized
    theme. *)
Theorem toggleTheme_normalizes (e : env) :
  (data_theme e ≠ Some "light" →
     data_theme (toggleTheme e) = Some "light"
     ∧ stored_theme (toggleTheme e) = Some "light")
  ∧ (data_theme e = Some "light" →
     data_theme (toggleTheme e) = Some "dark"
     ∧ stored_theme (toggleTheme e) = Some "dark")
  ∧ (∀ b s, stored_theme e = Some s → s ≠ "" → s ≠ "light" →
     data_theme (initTheme b e) = Some s
     ∧ data_theme (toggleTheme (initTheme b e)) = Some "light"
     ∧ stored_theme (toggleTheme (initTheme b e)) = Some "light")
  ∧ recognized (data_theme (toggleTheme e))
  ∧ stored_theme (toggleTheme e) = data_theme (toggleTheme e).
Proof.
  assert (Hother : ∀ e', data_theme e' ≠ Some "light" →
            data_theme (toggleTheme e') = Some "light"
            ∧ stored_theme (toggleTheme e') = Some "light").
  { intros e' Hne. unfold toggleTheme; simpl.
    destruct (is_light (data_theme e')) eqn:E; [|done].
    apply is_light_spec in E. contradiction. }
  split; [apply Hother|]. split; [|split; [|split]].
  - intros Hl. unfold toggleTheme; simpl. rewrite Hl. done.
  - intros b s Hs Hne Hnl.
    pose proof (initTheme_unvalidated b e s Hs Hne) as Hinit.
    split; [done|]. apply Hother. rewrite Hinit. congruence.
  - unfold toggleTheme, recognized; simpl.
    destruct (is_light (data_theme e)); auto.
  - reflexivity.
Qed.

Lemma toggleTheme_normalizes_witness :
  data_theme (toggleTheme (mkEnv (Some "solarized") (Some "solarized") true))
    = Some "light"
  ∧ stored_theme (toggleTheme (mkEnv (Some "solarized") (Some "solarized") true))
    = Some "light".
Proof.
  apply (toggleTheme_normalizes
           (mkEnv (Some "solarized") (Some "solarized") true)).
  simpl. discriminate.
Defined.

(** Toggling twice gives back a recognized theme, and a third toggle
    does what the first did: from any starting value the theme
    alternates between "light" and "dark" after the first click. *)
Theorem toggleTheme_involutive (e : env) :
  (recognized (data_theme e) →
     data_theme (toggleTheme (toggleTheme e)) = data_theme e
     ∧ stored_theme (toggleTheme (toggleTheme e)) = data_theme e)
  ∧ toggleTheme (toggleTheme (toggleTheme e)) = toggleTheme e.
Proof.
  split.
  - intros [H|H]; unfold toggleTheme; simpl; rewrite H; done.
  - unfold toggleTheme; simpl.
    destruct (is_light (data_theme e)); reflexivity.
Qed.

Lemma toggleTheme_involutive_witness :
  data_theme (toggleTheme (toggleTheme (mkEnv (Some "dark") None false)))
  = Some "dark".
Proof.
  apply (toggleTheme_involutive (mkEnv (Some "dark") None false)).
  right. reflexivity.
Defined.

(** The toggled theme survives a reload: [initTheme] after
    [toggleTheme] shows the theme the toggle chose.  [initTheme] itself
    never writes to storage, so a first visit (nothing stored, or the
    empty string) shows "light" and leaves storage as it was; running it
    again changes nothing. *)
Theorem theme_survives_reload (b : bool) (e : env) :
  data_theme (initTheme b (toggleTheme e)) = data_theme (toggleTheme e)
  ∧ stored_theme (initTheme b e) = stored_theme e
  ∧ (stored_theme e = None ∨ stored_theme e = Some "" →
     data_theme (initTheme b e) = Some "light")
  ∧ initTheme b (initTheme b e) = initTheme b e.
Proof.
  split; [|split; [|split]].
  - unfold initTheme, toggleTheme; simpl.
    destruct (is_light (data_theme e)); reflexivity.
  - reflexivity.
  - intros [H|H]; unfold initTheme; simpl; rewrite H; reflexivity.
  - unfold initTheme; simpl. by destruct b.
Qed.

Lemma theme_survives_reload_witness :
  data_theme (initTheme true (mkEnv None (Some "") false)) = Some "light".
Proof.
  apply (theme_survives_reload true (mkEnv None (Some "") false)).
  right. reflexivity.
Defined.

End ThemeProofs.

(** ** Gallery *)

Module GalleryProofs.
Import Gallery.

(** The scenario of the specification. *)
Example loadImages_aws_scenario :
  allImages (loadImages (Some (mkManifest [aws_note])) (Some "aws") initial)
  = [mkImageEntry "diagram" "aws/d.png" "AWS"].
Proof. reflexivity. Qed.

Example loadImages_failure :
  gallery (loadImages None (Some "aws") initial) = LoadError.
Proof. reflexivity. Qed.

Example navigate_back_from_first :
  currentImageIndex
    (final (navigateImage (-1) (loadImages (Some two_images) (Some "aws") initial)))
  = 1.
Proof. reflexivity. Qed.

Lemma loadGallery_frame (st : state) :
  allImages (loadGallery st) = allImages st
  ∧ filteredImages (loadGallery st) = filteredImages st
  ∧ currentImageIndex (loadGallery st) = currentImageIndex st
  ∧ header (loadGallery st) = header st
  ∧ lb (loadGallery st) = lb st.
Proof. unfold loadGallery. destruct (filteredImages st); done. Qed.

Lemma loadGallery_empty (st : state) :
  filteredImages st = [] → gallery (loadGallery st) = NoImagesFound.
Proof. intros H. unfold loadGallery. rewrite H. done. Qed.

Lemma at_index_in_range {A : Type} (a : list A) (i : Z) :
  0 ≤ i < Z.of_nat (length a) → is_Some (Js.at_index a i).
Proof.
  intros [Hlo Hhi]. unfold Js.at_index.
  destruct (i <? 0) eqn:E; [lia|].
  apply lookup_lt_is_Some. lia.
Qed.

Lemma navigateImage_index (d : Z) (st : state) :
  currentImageIndex (final (navigateImage d st))
  = wrap_index (Z.of_nat (length (filteredImages st)))
      (currentImageIndex st + d).
Proof.
  unfold navigateImage; simpl.
  destruct (Js.at_index _ _); reflexivity.
Qed.

(** C4: in a gallery of [N ≥ 1] images with the current index [i] inside
    [0..N-1], [navigateImage(-1)] at index 0 yields [N-1],
    [navigateImage(+1)] at index [N-1] yields 0, and every other step
    [d] in [{-1,+1}] yields [i+d]; the call returns and shows the image
    at the new index. *)
Theorem navigateImage_wraps (d : Z) (st : state) :
  let N := Z.of_nat (length (filteredImages st)) in
  let i := currentImageIndex st in
  1 ≤ N → 0 ≤ i < N → d = -1 ∨ d = 1 →
  let i' := currentImageIndex (final (navigateImage d st)) in
  (i = 0 → d = -1 → i' = N - 1)
  ∧ (i = N - 1 → d = 1 → i' = 0)
  ∧ (¬ (i = 0 ∧ d = -1) → ¬ (i = N - 1 ∧ d = 1) → i' = i + d)
  ∧ returned (navigateImage d st) = true
  ∧ 0 ≤ i' < N.
Proof.
  intros N i HN Hi Hd i'.
  assert (Hi' : i' = wrap_index N (i + d)) by apply navigateImage_index.
  assert (Hrange : 0 ≤ wrap_index N (i + d) < N).
  { unfold wrap_index.
    destruct (i + d <? 0) eqn:E1.
    - destruct (N - 1 >=? N) eqn:E2; lia.
    - destruct (i + d >=? N) eqn:E2; lia. }
  repeat split.
  - intros H0 Hm. rewrite Hi'. unfold wrap_index.
    destruct (i + d <? 0) eqn:E1; [|lia].
    destruct (N - 1 >=? N) eqn:E2; lia.
  - intros HN1 Hp. rewrite Hi'. unfold wrap_index.
    destruct (i + d <? 0) eqn:E1; [lia|].
    destruct (i + d >=? N) eqn:E2; lia.
  - intros Hn0 HnN. rewrite Hi'. unfold wrap_index.
    destruct (i + d <? 0) eqn:E1; [lia|].
    destruct (i + d >=? N) eqn:E2; lia.
  - unfold navigateImage. simpl. fold N. fold i.
    destruct (at_index_in_range (filteredImages st) (wrap_index N (i + d)))
      as [img Himg]; [exact Hrange|].
    rewrite Himg. reflexivity.
  - lia.
  - lia.
Qed.

Lemma navigateImage_wraps_witness :
  currentImageIndex
    (final (navigateImage (-1)
              (loadImages (Some two_images) (Some "aws") initial)))
  = 2 - 1.
Proof.
  apply (navigateImage_wraps (-1)
           (loadImages (Some two_images) (Some "aws") initial));
    simpl; lia.
Defined.

Lemma find_of_filter_singleton {A : Type} (f : A → bool) (l : list A) (x : A) :
  List.filter f l = [x] → List.find f l = Some x.
Proof.
  induction l as [|y l IH]; simpl; [discriminate|].
  destruct (f y); [congruence|exact IH].
Qed.

Lemma find_of_filter_nil {A : Type} (f : A → bool) (l : list A) :
  List.filter f l = [] → List.find f l = None.
Proof.
  induction l as [|y l IH]; simpl; [done|].
  destruct (f y); [discriminate|exact IH].
Qed.

(** C5, as stated, fails: the only note matching [folder=aws] lists one
    image, yet the built list is empty because the note does not declare
    [hasImages]. *)
Lemma loadImages_undeclared_images_dropped :
  is_all (Some "aws") = false
  ∧ List.filter (folder_matches (Some "aws")) [undeclared_note]
    = [undeclared_note]
  ∧ images undeclared_note = Some [mkManifestImage "diagram" "d.png"]
  ∧ allImages
      (loadImages (Some (mkManifest [undeclared_note])) (Some "aws") initial)
    = [].
Proof. repeat split. Qed.

(** C5 (amended): for a folder parameter other than [all], if exactly
    one note matches the folder id, declares [hasImages] and carries an
    [images] array, the built list is that note's images in order, each
    entry with the image's name, [file] equal to the note's folder joined
    to the image's file by "/", and [folder] equal to the note's title;
    if no note matches, the list is empty and the gallery shows the
    "no images" result, not the load-error message. *)
Theorem loadImages_folder (m : manifest) (folderParam : option string) :
  is_all folderParam = false →
  let st := loadImages (Some m) folderParam initial in
  (∀ n imgs,
     List.filter (folder_matches folderParam) (notes m) = [n] →
     hasImages n = true → images n = Some imgs →
     allImages st = entry_of n <$> imgs
     ∧ filteredImages st = allImages st
     ∧ Forall2
         (λ e img,
            name e = mi_name img
            ∧ file e = (note_folder n ++ "/" ++ mi_file img)%string
            ∧ folder e = note_title n)
         (allImages st) imgs)
  ∧ (List.filter (folder_matches folderParam) (notes m) = [] →
     allImages st = []
     ∧ gallery st = NoImagesFound
     ∧ gallery st ≠ LoadError).
Proof.
  intros Hall st. subst st. unfold loadImages. rewrite Hall. split.
  - intros n imgs Hone Hdecl Himgs.
    rewrite (find_of_filter_singleton _ _ _ Hone).
    unfold note_images. rewrite Hdecl, Himgs.
    destruct (loadGallery_frame
                {| allImages := entry_of n <$> imgs;
                   currentImageIndex := currentImageIndex initial;
                   filteredImages := entry_of n <$> imgs;
                   gallery := gallery initial;
                   imageCount := imageCount initial;
                   header := HeaderFolder (note_title n);
                   lb := lb initial |}) as (Ha & Hf & _).
    rewrite Ha, Hf. simpl. repeat split.
    clear. induction imgs as [|img imgs IH]; constructor; auto.
  - intros Hnone. rewrite (find_of_filter_nil _ _ Hnone).
    simpl. repeat split. discriminate.
Qed.

Lemma loadImages_folder_witness :
  allImages (loadImages (Some (mkManifest [aws_note])) (Some "aws") initial)
  = entry_of aws_note <$> [mkManifestImage "diagram" "d.png"].
Proof.
  apply (loadImages_folder (mkManifest [aws_note]) (Some "aws"));
    reflexivity.
Defined.

Example filter_by_name :
  filteredImages
    (filterImages "VPC" (loadImages (Some two_images) (Some "aws") initial))
  = [mkImageEntry "vpc" "aws/vpc.png" "AWS"].
Proof. reflexivity. Qed.

(** C8: filtering is idempotent.  [filterImages] derives the filtered
    list from the full list, which it does not change, so applying it
    twice with one search term leaves exactly the state one application
    leaves. *)
Theorem filterImages_idempotent (term : string) (st : state) :
  filterImages term (filterImages term st) = filterImages term st
  ∧ filteredImages (filterImages term st)
    = List.filter (image_matches (Js.toLowerCase term)) (allImages st)
  ∧ allImages (filterImages term st) = allImages st.
Proof.
  unfold filterImages, loadGallery; simpl.
  destruct (List.filter _ (allImages st)) eqn:E; simpl; rewrite E; done.
Qed.

(** C10: [filterImages] never changes [currentImageIndex]; hence there
    is a reachable state (the lightbox opened at index 1, then a filter
    that keeps one image) in which [currentImageIndex] is at least the
    length of the filtered list and names no entry of it. *)
Theorem filterImages_keeps_index (term : string) (st : state) :
  currentImageIndex (filterImages term st) = currentImageIndex st
  ∧ ∃ (m : manifest) (i : Z) (search : string) (opened : state),
      openLightbox i (loadImages (Some m) (Some "aws") initial)
        = Returned opened
      ∧ currentImageIndex opened = i
      ∧ (length (filteredImages (filterImages search opened)) ≤ Z.to_nat i)%nat
      ∧ Z.of_nat (length (filteredImages (filterImages search opened)))
        ≤ currentImageIndex (filterImages search opened)
      ∧ Js.at_index (filteredImages (filterImages search opened))
          (currentImageIndex (filterImages search opened)) = None.
Proof.
  split.
  - unfold filterImages.
    by destruct (loadGallery_frame
                   {| allImages := allImages st;
                      currentImageIndex := currentImageIndex st;
                      filteredImages :=
                        List.filter (image_matches (Js.toLowerCase term))
                          (allImages st);
                      gallery := gallery st;
                      imageCount := imageCount st;
                      header := header st;
                      lb := lb st |}) as (_ & _ & Hi & _).
  - exists two_images, 1, "vpc". eexists. split; [reflexivity|].
    vm_compute. repeat split; try lia; discriminate.
Qed.

(** *** Lightbox: opening, stepping, keyboard *)

Lemma navigateImage_frame (d : Z) (st : state) :
  filteredImages (final (navigateImage d st)) = filteredImages st
  ∧ allImages (final (navigateImage d st)) = allImages st
  ∧ gallery (final (navigateImage d st)) = gallery st.
Proof.
  unfold navigateImage; simpl. destruct (Js.at_index _ _); done.
Qed.

Lemma wrap_index_in_range (N i : Z) : 1 ≤ N → 0 ≤ wrap_index N i < N.
Proof.
  intros HN. unfold wrap_index.
  destruct (i <? 0) eqn:E1.
  - destruct (N - 1 >=? N) eqn:E2; lia.
  - destruct (i >=? N) eqn:E2; lia.
Qed.

Lemma wrap_index_succ (N j : Z) :
  0 ≤ j < N → wrap_index N (j + 1) = (j + 1) mod N.
Proof.
  intros Hj. unfold wrap_index.
  destruct (j + 1 <? 0) eqn:E1; [lia|].
  destruct (j + 1 >=? N) eqn:E2.
  - assert (j + 1 = N) as -> by lia. by rewrite Z.mod_same by lia.
  - rewrite Z.mod_small; lia.
Qed.

Lemma at_index_of_nat {A : Type} (a : list A) (k : nat) :
  Js.at_index a (Z.of_nat k) = a !! k.
Proof.
  unfold Js.at_index. destruct (Z.ltb_spec (Z.of_nat k) 0) as [E|E]; [lia|].
  by rewrite Nat2Z.id.
Qed.

(** Every card [loadGallery] renders opens its own image: the card at
    position [k] carries index [k], and [openLightbox k] returns with
    the lightbox active on that image and the counter at [k+1] of the
    number of filtered images; the count text is that number. *)
Theorem loadGallery_cards_open (st : state) (k : nat) (img : ImageEntry) :
  filteredImages st !! k = Some img →
  (∃ cards, gallery (loadGallery st) = Cards cards
            ∧ cards !! k = Some (k, img)
            ∧ length cards = length (filteredImages st))
  ∧ openLightbox (Z.of_nat k) (loadGallery st)
    = Returned
        (with_lightbox
           (mkLightbox true (file img) (name img)
              (Some (Z.of_nat k + 1, length (filteredImages st))))
           (with_index (Z.of_nat k) (loadGallery st)))
  ∧ (count_n <$> imageCount (loadGallery st))
    = Some (length (filteredImages st)).
Proof.
  intros Hk.
  destruct (loadGallery_frame st) as (_ & Hf & _).
  split; [|split].
  - unfold loadGallery. destruct (filteredImages st) as [|x l] eqn:E.
    { by rewrite lookup_nil in Hk. }
    eexists. split; [reflexivity|].
    split; [|by rewrite length_imap].
    rewrite list_lookup_imap, Hk. done.
  - unfold openLightbox.
    change (filteredImages (with_index (Z.of_nat k) (loadGallery st)))
      with (filteredImages (loadGallery st)).
    rewrite Hf, at_index_of_nat, Hk. done.
  - unfold loadGallery. destruct (filteredImages st); done.
Qed.

Lemma loadGallery_cards_open_witness :
  openLightbox 1 (loadGallery (loadImages (Some two_images) (Some "aws") initial))
  = Returned
      (with_lightbox
         (mkLightbox true "aws/iam.png" "iam" (Some (2, 2%nat)))
         (with_index 1
            (loadGallery (loadImages (Some two_images) (Some "aws") initial)))).
Proof.
  apply (loadGallery_cards_open
           (loadImages (Some two_images) (Some "aws") initial) 1
           (mkImageEntry "iam" "aws/iam.png" "AWS")).
  reflexivity.
Defined.

(** [openLightbox] with an index outside the filtered list throws: the
    lightbox is left as it was, but [currentImageIndex] has already been
    overwritten with the bad index. *)
Theorem openLightbox_out_of_range (index : Z) (st : state) :
  index < 0 ∨ Z.of_nat (length (filteredImages st)) ≤ index →
  returned (openLightbox index st) = false
  ∧ currentImageIndex (final (openLightbox index st)) = index
  ∧ lb (final (openLightbox index st)) = lb st
  ∧ filteredImages (final (openLightbox index st)) = filteredImages st.
Proof.
  intros Hout. unfold openLightbox. simpl.
  assert (Js.at_index (filteredImages st) index = None) as ->; [|done].
  unfold Js.at_index. destruct (index <? 0) eqn:E; [done|].
  apply lookup_ge_None. lia.
Qed.

Lemma openLightbox_out_of_range_witness :
  currentImageIndex
    (final (openLightbox 5 (loadImages (Some two_images) (Some "aws") initial)))
  = 5.
Proof.
  apply (openLightbox_out_of_range 5
           (loadImages (Some two_images) (Some "aws") initial)).
  right. simpl. lia.
Defined.

(** In a non-empty gallery [navigateImage] always ends on an entry:
    whatever the index was before (also one left stale by a filter) and
    whatever the step, the call returns, the new index is inside
    [0..N-1] and the lightbox shows the image at that index with the
    counter at index+1 of N. *)
Theorem navigateImage_lands_in_range (d : Z) (st : state) :
  let N := Z.of_nat (length (filteredImages st)) in
  1 ≤ N →
  let st' := final (navigateImage d st) in
  returned (navigateImage d st) = true
  ∧ 0 ≤ currentImageIndex st' < N
  ∧ ∃ img, filteredImages st !! Z.to_nat (currentImageIndex st') = Some img
           ∧ lb st' = mkLightbox (lb_active (lb st)) (file img) (name img)
                        (Some (currentImageIndex st' + 1,
                               length (filteredImages st))).
Proof.
  intros N HN st'.
  pose proof (wrap_index_in_range N (currentImageIndex st + d) HN) as Hr.
  destruct (at_index_in_range (filteredImages st)
              (wrap_index N (currentImageIndex st + d)) Hr) as [img Himg].
  subst st'. unfold navigateImage. simpl. fold N. rewrite Himg. simpl.
  split; [done|]. split; [done|]. exists img. split; [|done].
  unfold Js.at_index in Himg.
  destruct (wrap_index N (currentImageIndex st + d) <? 0); [done|exact Himg].
Qed.

Lemma navigateImage_lands_in_range_witness :
  returned
    (navigateImage 1
       (final (openLightbox 7
                 (loadImages (Some two_images) (Some "aws") initial))))
  = true.
Proof.
  apply (navigateImage_lands_in_range 1
           (final (openLightbox 7
                     (loadImages (Some two_images) (Some "aws") initial)))).
  simpl. lia.
Defined.

(** With no image to show, [navigateImage] throws in either direction:
    the index is left at -1 or 0 and the lightbox is not updated. *)
Theorem navigateImage_empty_throws (d : Z) (st : state) :
  filteredImages st = [] →
  returned (navigateImage d st) = false
  ∧ (currentImageIndex (final (navigateImage d st)) = -1
     ∨ currentImageIndex (final (navigateImage d st)) = 0)
  ∧ lb (final (navigateImage d st)) = lb st.
Proof.
  intros He.
  assert (Hat : ∀ i, Js.at_index (filteredImages st) i = None).
  { intros i. rewrite He. unfold Js.at_index. by destruct (i <? 0). }
  split; [|split].
  - unfold navigateImage.
    change (filteredImages (with_index ?i st)) with (filteredImages st).
    by rewrite Hat.
  - rewrite navigateImage_index, He. unfold wrap_index.
    change (Z.of_nat (length (@nil ImageEntry))) with 0.
    destruct (currentImageIndex st + d <? 0) eqn:E1; [by left|].
    destruct (currentImageIndex st + d >=? 0) eqn:E2; [by right|lia].
  - unfold navigateImage.
    change (filteredImages (with_index ?i st)) with (filteredImages st).
    by rewrite Hat.
Qed.

Lemma navigateImage_empty_throws_witness :
  returned (navigateImage 1 (loadImages None (Some "aws") initial)) = false.
Proof.
  apply (navigateImage_empty_throws 1 (loadImages None (Some "aws") initial)).
  reflexivity.
Defined.

(** One step forward and one step back cancel, in either order, from
    every index inside the gallery. *)
Theorem navigateImage_round_trip (st : state) :
  let N := Z.of_nat (length (filteredImages st)) in
  0 ≤ currentImageIndex st < N →
  currentImageIndex
    (final (navigateImage (-1) (final (navigateImage 1 st))))
  = currentImageIndex st
  ∧ currentImageIndex
      (final (navigateImage 1 (final (navigateImage (-1) st))))
    = currentImageIndex st.
Proof.
  intros N Hi.
  rewrite !navigateImage_index.
  destruct (navigateImage_frame 1 st) as (-> & _).
  destruct (navigateImage_frame (-1) st) as (-> & _).
  fold N.
  unfold wrap_index. split.
  - destruct (currentImageIndex st + 1 <? 0) eqn:E1; [lia|].
    destruct (currentImageIndex st + 1 >=? N) eqn:E2.
    + replace (0 + -1 <? 0) with true by (symmetry; apply Z.ltb_lt; lia).
      destruct (N - 1 >=? N) eqn:E3; lia.
    + destruct (currentImageIndex st + 1 + -1 <? 0) eqn:E3; [lia|].
      destruct (currentImageIndex st + 1 + -1 >=? N) eqn:E4; lia.
  - destruct (currentImageIndex st + -1 <? 0) eqn:E1.
    + destruct (N - 1 >=? N) eqn:E2; [lia|].
      destruct (N - 1 + 1 <? 0) eqn:E3; [lia|].
      destruct (N - 1 + 1 >=? N) eqn:E4; lia.
    + destruct (currentImageIndex st + -1 >=? N) eqn:E2; [lia|].
      destruct (currentImageIndex st + -1 + 1 <? 0) eqn:E3; [lia|].
      destruct (currentImageIndex st + -1 + 1 >=? N) eqn:E4; lia.
Qed.

Lemma navigateImage_round_trip_witness :
  currentImageIndex
    (final (navigateImage (-1)
       (final (navigateImage 1
          (loadImages (Some two_images) (Some "aws") initial)))))
  = 0.
Proof.
  apply (navigateImage_round_trip
           (loadImages (Some two_images) (Some "aws") initial)).
  simpl. lia.
Defined.

Lemma press_right_frame (k : nat) (st : state) :
  filteredImages (press_right k st) = filteredImages st.
Proof.
  induction k as [|k IH]; [done|].
  unfold press_right in *. simpl.
  destruct (navigateImage_frame 1
              (Nat.iter k (λ s, final (navigateImage 1 s)) st)) as (-> & _).
  exact IH.
Qed.

(** Pressing ArrowRight [k] times from index [i] of [N] images shows
    image [(i + k) mod N]; in particular [N] presses come back to the
    image they started from. *)
Theorem press_right_cycles (k : nat) (st : state) :
  let N := Z.of_nat (length (filteredImages st)) in
  0 ≤ currentImageIndex st < N →
  currentImageIndex (press_right k st)
  = (currentImageIndex st + Z.of_nat k) mod N
  ∧ currentImageIndex (press_right (length (filteredImages st)) st)
    = currentImageIndex st.
Proof.
  intros N Hi.
  assert (Hk : ∀ k, currentImageIndex (press_right k st)
                    = (currentImageIndex st + Z.of_nat k) mod N).
  { clear k. induction k as [|k IH].
    - simpl. rewrite Z.add_0_r, Z.mod_small; lia.
    - pose proof (press_right_frame k st) as Hf.
      unfold press_right in *. simpl.
      rewrite navigateImage_index, Hf, IH. fold N.
      rewrite wrap_index_succ by (apply Z.mod_pos_bound; lia).
      rewrite Z.add_mod_idemp_l by lia. f_equal. lia. }
  split; [apply Hk|]. rewrite Hk. fold N.
  rewrite <- (Z.mul_1_l N) at 1. rewrite Z.mod_add by lia.
  apply Z.mod_small. lia.
Qed.

Lemma press_right_cycles_witness :
  currentImageIndex
    (press_right 2 (loadImages (Some two_images) (Some "aws") initial))
  = 0.
Proof.
  apply (press_right_cycles 2
           (loadImages (Some two_images) (Some "aws") initial)).
  simpl. lia.
Defined.

(** The keyboard handler acts only while the lightbox is open: with the
    lightbox closed every key leaves the state as it is; Escape closes
    the lightbox without touching the images or the index, and after it
    no key has any effect. *)
Theorem keyboard_gated (key : string) (st : state) :
  (lb_active (lb st) = false → on_keydown key st = Returned st)
  ∧ lb_active (lb (final (on_keydown "Escape" st))) = false
  ∧ on_keydown key (final (on_keydown "Escape" st))
    = Returned (final (on_keydown "Escape" st))
  ∧ filteredImages (final (on_keydown "Escape" st)) = filteredImages st
  ∧ currentImageIndex (final (on_keydown "Escape" st)) = currentImageIndex st.
Proof.
  assert (Hclosed : ∀ s, lb_active (lb s) = false →
                         on_keydown key s = Returned s).
  { intros s Hs. unfold on_keydown. by rewrite Hs. }
  assert (Hesc : lb_active (lb (final (on_keydown "Escape" st))) = false).
  { unfold on_keydown. destruct (lb_active (lb st)) eqn:E; simpl; done. }
  split; [apply Hclosed|]. split; [exact Hesc|].
  split; [by apply Hclosed|].
  unfold on_keydown. destruct (lb_active (lb st)); done.
Qed.

Lemma keyboard_gated_witness :
  on_keydown "ArrowRight" (loadImages (Some two_images) (Some "aws") initial)
  = Returned (loadImages (Some two_images) (Some "aws") initial).
Proof.
  apply (proj1 (keyboard_gated "ArrowRight"
                  (loadImages (Some two_images) (Some "aws") initial))).
  reflexivity.
Defined.

(** *** Filtering *)

Lemma filter_sublist {A : Type} (f : A → bool) (l : list A) :
  List.filter f l `sublist_of` l.
Proof.
  induction l as [|x l IH]; simpl; [done|].
  destruct (f x); by constructor.
Qed.

Lemma filter_mono_sublist {A : Type} (f g : A → bool) (l : list A) :
  (∀ x, f x = true → g x = true) →
  List.filter f l `sublist_of` List.filter g l.
Proof.
  intros Hfg. induction l as [|x l IH]; simpl; [done|].
  destruct (f x) eqn:Ef.
  - rewrite (Hfg x Ef). by constructor.
  - destruct (g x); [by constructor|done].
Qed.

Lemma filter_all {A : Type} (f : A → bool) (l : list A) :
  (∀ x, f x = true) → List.filter f l = l.
Proof.
  intros Hf. induction l as [|x l IH]; simpl; [done|].
  by rewrite Hf, IH.
Qed.

Lemma filteredImages_filterImages (term : string) (st : state) :
  filteredImages (filterImages term st)
  = List.filter (image_matches (Js.toLowerCase term)) (allImages st).
Proof.
  unfold filterImages.
  by destruct (loadGallery_frame
                 {| allImages := allImages st;
                    currentImageIndex := currentImageIndex st;
                    filteredImages :=
                      List.filter (image_matches (Js.toLowerCase term))
                        (allImages st);
                    gallery := gallery st;
                    imageCount := imageCount st;
                    header := header st;
                    lb := lb st |}) as (_ & Hf & _).
Qed.

(** An empty search box shows every image again: whatever was filtered
    before, [filterImages] with the empty term makes the filtered list
    the full list. *)
Theorem filterImages_empty_term_shows_all (term : string) (st : state) :
  filteredImages (filterImages "" st) = allImages st
  ∧ filteredImages (filterImages "" (filterImages term st)) = allImages st.
Proof.
  assert (H : ∀ s, filteredImages (filterImages "" s) = allImages s).
  { intros s. rewrite filteredImages_filterImages. apply filter_all.
    intros img. unfold image_matches. simpl.
    by rewrite JsFacts.includes_empty. }
  split; [apply H|]. rewrite H.
  unfold filterImages.
  by destruct (loadGallery_frame
                 {| allImages := allImages st;
                    currentImageIndex := currentImageIndex st;
                    filteredImages :=
                      List.filter (image_matches (Js.toLowerCase term))
                        (allImages st);
                    gallery := gallery st;
                    imageCount := imageCount st;
                    header := header st;
                    lb := lb st |}) as (Ha & _).
Qed.

(** The search ignores the case of the term, and what it shows is a
    selection of the full list in the full list's order, each shown
    image containing the lower-cased term in its lower-cased name or
    folder title. *)
Theorem filterImages_case_insensitive (term : string) (st : state) :
  filterImages (Js.toLowerCase term) st = filterImages term st
  ∧ filteredImages (filterImages term st) `sublist_of` allImages st
  ∧ ∀ img, img ∈ filteredImages (filterImages term st) →
      Js.includes (Js.toLowerCase (name img)) (Js.toLowerCase term) = true
      ∨ Js.includes (Js.toLowerCase (folder img)) (Js.toLowerCase term) = true.
Proof.
  split; [|split].
  - unfold filterImages. by rewrite JsFacts.toLowerCase_idem.
  - rewrite filteredImages_filterImages. apply filter_sublist.
  - intros img. rewrite filteredImages_filterImages.
    rewrite list_elem_of_In, filter_In. intros [_ Hm].
    unfold image_matches in Hm. by apply orb_true_iff in Hm.
Qed.

Lemma filterImages_case_insensitive_witness :
  Js.includes (Js.toLowerCase "vpc") (Js.toLowerCase "VPC") = true
  ∨ Js.includes (Js.toLowerCase "AWS") (Js.toLowerCase "VPC") = true.
Proof.
  apply (proj2 (proj2 (filterImages_case_insensitive "VPC"
                         (loadImages (Some two_images) (Some "aws") initial)))
           (mkImageEntry "vpc" "aws/vpc.png" "AWS")).
  apply list_elem_of_here.
Defined.

(** A narrower term never brings an image back: when the lower-cased
    new term contains the lower-cased previous term, what the new term
    shows is a selection of what the previous term showed.  Only the
    substring test is used, not how the lower-casing is computed. *)
Theorem filterImages_narrows (term term' : string) (st : state) :
  Js.includes (Js.toLowerCase term') (Js.toLowerCase term) = true →
  filteredImages (filterImages term' st)
  `sublist_of` filteredImages (filterImages term st).
Proof.
  intros Hsub.
  rewrite !filteredImages_filterImages. apply filter_mono_sublist.
  intros img. unfold image_matches. rewrite !orb_true_iff.
  intros [H|H]; [left|right]; by eapply JsFacts.includes_trans.
Qed.

Lemma filterImages_narrows_witness :
  filteredImages
    (filterImages "VPC."
       (loadImages (Some two_images) (Some "aws") initial))
  `sublist_of`
  filteredImages
    (filterImages "pc" (loadImages (Some two_images) (Some "aws") initial)).
Proof.
  apply (filterImages_narrows "pc" "VPC."
           (loadImages (Some two_images) (Some "aws") initial)).
  reflexivity.
Defined.

(** *** Loading *)

(** When the manifest cannot be loaded the gallery shows the error
    message and no image is held; the first use of the search box then
    replaces the error message by the "no images" result. *)
Theorem load_failure_then_filter (folderParam : option string)
    (term : string) :
  gallery (loadImages None folderParam initial) = LoadError
  ∧ allImages (loadImages None folderParam initial) = []
  ∧ filteredImages (loadImages None folderParam initial) = []
  ∧ gallery (filterImages term (loadImages None folderParam initial))
    = NoImagesFound.
Proof. repeat split. Qed.

Lemma find_unique_folder (ns : list note) (n : note) :
  NoDup (note_folder <$> ns) → n ∈ ns →
  List.find (folder_matches (Some (note_folder n))) ns = Some n.
Proof.
  induction ns as [|x ns IH]; intros Hnd Hin.
  - by apply elem_of_nil in Hin.
  - rewrite fmap_cons in Hnd. apply NoDup_cons in Hnd as [Hx Hnd].
    simpl. destruct (String.eqb_spec (note_folder x) (note_folder n)) as [E|E].
    + apply elem_of_cons in Hin as [->|Hin]; [done|].
      exfalso. apply Hx. rewrite E. apply list_elem_of_fmap. by exists n.
    + apply elem_of_cons in Hin as [->|Hin]; [done|]. by apply IH.
Qed.

Lemma flat_map_concat_ext {A B : Type} (f g : A → list B) (l : list A) :
  (∀ x, x ∈ l → f x = g x) → flat_map g l = concat (f <$> l).
Proof.
  induction l as [|x l IH]; intros Hfg; [done|].
  rewrite fmap_cons. cbn [flat_map concat].
  rewrite Hfg by apply list_elem_of_here. f_equal. apply IH.
  intros y Hy. apply Hfg. by apply list_elem_of_further.
Qed.

(** The gallery of one folder is the contribution of that folder's
    note, and the [all] gallery is the galleries of the folders one
    after the other in manifest order, provided the folders of the
    manifest are distinct and none is named "all". *)
Theorem all_gallery_is_concat_of_folders (m : manifest) :
  NoDup (note_folder <$> notes m) →
  Forall (λ n, note_folder n ≠ "all") (notes m) →
  allImages (loadImages (Some m) (Some "all") initial)
  = concat ((λ n, allImages
                    (loadImages (Some m) (Some (note_folder n)) initial))
            <$> notes m).
Proof.
  intros Hnd Hall.
  assert (Hone : ∀ n, n ∈ notes m →
            allImages (loadImages (Some m) (Some (note_folder n)) initial)
            = all_branch_entries n).
  { intros n Hin. unfold loadImages.
    assert (is_all (Some (note_folder n)) = false) as ->.
    { simpl. apply String.eqb_neq. by eapply Forall_forall in Hall. }
    rewrite (find_unique_folder _ _ Hnd Hin). unfold all_branch_entries.
    destruct (note_images n) as [imgs|].
    - by destruct (loadGallery_frame
                     {| allImages := entry_of n <$> imgs;
                        currentImageIndex := currentImageIndex initial;
                        filteredImages := entry_of n <$> imgs;
                        gallery := gallery initial;
                        imageCount := imageCount initial;
                        header := HeaderFolder (note_title n);
                        lb := lb initial |}) as (-> & _).
    - done. }
  transitivity (flat_map all_branch_entries (notes m)).
  { unfold loadImages.
    replace (is_all (Some "all")) with true by reflexivity.
    cbv beta iota zeta.
    by destruct (loadGallery_frame
                   {| allImages :=
                        allImages initial
                        ++ flat_map all_branch_entries (notes m);
                      currentImageIndex := currentImageIndex initial;
                      filteredImages :=
                        allImages initial
                        ++ flat_map all_branch_entries (notes m);
                      gallery := gallery initial;
                      imageCount := imageCount initial;
                      header := HeaderAllImages;
                      lb := lb initial |}) as (-> & _). }
  by apply flat_map_concat_ext.
Qed.

Lemma all_gallery_is_concat_of_folders_witness :
  allImages
    (loadImages (Some (mkManifest [aws_note; undeclared_docs])) (Some "all")
       initial)
  = concat ((λ n, allImages
                    (loadImages (Some (mkManifest [aws_note; undeclared_docs]))
                       (Some (note_folder n)) initial))
            <$> [aws_note; undeclared_docs]).
Proof.
  apply (all_gallery_is_concat_of_folders
           (mkManifest [aws_note; undeclared_docs])).
  - simpl. apply NoDup_cons. split.
    + rewrite list_elem_of_singleton. discriminate.
    + apply NoDup_singleton.
  - repeat constructor; discriminate.
Defined.

(** *** Download *)

(** [downloadImage] offers the current image under the part of its path
    after the last "/": that name holds no "/", and the path is the name
    itself or ends with "/" followed by the name.  For an entry built
    from a manifest image whose file name holds no "/", the name is that
    file name, whatever the folder is. *)
Theorem downloadImage_name (st : state) (img : ImageEntry) :
  Js.at_index (filteredImages st) (currentImageIndex st) = Some img →
  ∃ fname,
    downloadImage st = Some (mkLink (file img) (Some fname))
    ∧ Js.includes fname "/" = false
    ∧ (file img = fname ∨ ∃ pre, file img = pre +:+ ("/" +:+ fname))
    ∧ (∀ n mi, img = entry_of n mi → Js.includes (mi_file mi) "/" = false →
         fname = mi_file mi).
Proof.
  intros Hat. unfold downloadImage. rewrite Hat.
  destruct (JsFacts.last_split_on_spec "/"%char (file img))
    as (piece & Hlast & Hno & Hend).
  exists piece. unfold Js.pop_value. rewrite Hlast.
  split; [done|]. split; [exact Hno|]. split; [exact Hend|].
  intros n mi -> Hmi. simpl in Hlast.
  change (note_folder n +:+ "/" +:+ mi_file mi)
    with (note_folder n +:+ String "/"%char (mi_file mi)) in Hlast.
  rewrite JsFacts.last_split_on_app in Hlast.
  rewrite (JsFacts.split_on_no_sep "/"%char (mi_file mi) Hmi) in Hlast.
  simpl in Hlast. congruence.
Qed.

Lemma downloadImage_name_witness :
  ∃ fname,
    downloadImage (loadImages (Some two_images) (Some "aws") initial)
    = Some (mkLink "aws/vpc.png" (Some fname))
    ∧ Js.includes fname "/" = false
    ∧ ("aws/vpc.png" = fname ∨ ∃ pre, "aws/vpc.png" = pre +:+ ("/" +:+ fname))
    ∧ (∀ n mi, mkImageEntry "vpc" "aws/vpc.png" "AWS" = entry_of n mi →
         Js.includes (mi_file mi) "/" = false → fname = mi_file mi).
Proof.
  apply (downloadImage_name
           (loadImages (Some two_images) (Some "aws") initial)
           (mkImageEntry "vpc" "aws/vpc.png" "AWS")).
  reflexivity.
Defined.

(** *** View mode *)

(** After [setView] the clicked button is the only [.view-btn] marked
    active, elements that are not view buttons keep their mark, and the
    gallery is in list view exactly for the view "list". *)
Theorem setView_one_active (view : string) (button : nat) (d : view_dom) :
  (∀ x, x ∈ view_btns d → (x ∈ active_els (setView view button d) ↔ x = button))
  ∧ (∀ x, x ∉ view_btns d → x ≠ button →
       (x ∈ active_els (setView view button d) ↔ x ∈ active_els d))
  ∧ (list_view (setView view button d) = true ↔ view = "list")
  ∧ view_btns (setView view button d) = view_btns d.
Proof.
  unfold setView; simpl. split; [|split; [|split]].
  - intros x Hx.
    rewrite elem_of_union, elem_of_difference, elem_of_singleton,
      elem_of_list_to_set. tauto.
  - intros x Hx Hne.
    rewrite elem_of_union, elem_of_difference, elem_of_singleton,
      elem_of_list_to_set. tauto.
  - apply String.eqb_eq.
  - done.
Qed.

Lemma setView_one_active_witness :
  (2%nat ∈ active_els (setView "list" 2%nat (mkViewDom [1%nat; 2%nat] {[1%nat]} false))
   ↔ 2%nat = 2%nat).
Proof.
  apply (setView_one_active "list" 2%nat
           (mkViewDom [1%nat; 2%nat] {[1%nat]} false)).
  simpl. rewrite !elem_of_cons. auto.
Defined.

End GalleryProofs.

(** ** Knowledge-check list *)

Module KCListProofs.
Import KCList.

(** *** The model of [Array.prototype.sort] *)

Section SortFacts.
Context {A : Type} (cmp : A → A → Z).

Lemma sort_insert_perm (x : A) (l : list A) :
  Js.sort_insert cmp x l ≡ₚ x :: l.
Proof.
  induction l as [|y l IH]; simpl; [done|].
  destruct (cmp x y <=? 0); [done|].
  rewrite IH. apply Permutation_swap.
Qed.

Lemma array_sort_perm (l : list A) : Js.array_sort cmp l ≡ₚ l.
Proof.
  induction l as [|x l IH]; simpl; [done|].
  by rewrite sort_insert_perm, IH.
Qed.

(** A comparator that answers 0 everywhere moves nothing. *)
Lemma array_sort_all_equal (l : list A) :
  (∀ a b, cmp a b = 0) → Js.array_sort cmp l = l.
Proof.
  intros H0. induction l as [|x l IH]; simpl; [done|].
  rewrite IH. destruct l as [|y l]; simpl; [done|].
  by rewrite H0.
Qed.

Context (cmp_trans : Transitive (Js.cmp_le cmp)) (cmp_total : Total (Js.cmp_le cmp)).

Lemma sort_insert_sorted (x : A) (l : list A) :
  StronglySorted (Js.cmp_le cmp) l → StronglySorted (Js.cmp_le cmp) (Js.sort_insert cmp x l).
Proof.
  induction l as [|y l IH]; simpl; intros Hs.
  - by repeat constructor.
  - apply StronglySorted_cons in Hs as [Hy Hl].
    destruct (cmp x y <=? 0) eqn:E.
    + apply Z.leb_le in E. apply StronglySorted_cons. split.
      * constructor; [exact E|].
        eapply Forall_impl; [exact Hy|]. intros z Hz. by etrans.
      * by apply StronglySorted_cons.
    + apply Z.leb_gt in E. apply StronglySorted_cons. split.
      * rewrite sort_insert_perm. constructor; [|exact Hy].
        destruct (cmp_total x y) as [Hxy|Hyx]; [|exact Hyx].
        unfold Js.cmp_le in Hxy. lia.
      * by apply IH.
Qed.

Lemma array_sort_sorted (l : list A) :
  StronglySorted (Js.cmp_le cmp) (Js.array_sort cmp l).
Proof.
  induction l as [|x l IH]; simpl; [constructor|].
  by apply sort_insert_sorted.
Qed.
End SortFacts.

(** *** The code-unit order *)

Lemma default_compare_le (x y : string) :
  Js.cmp_le Js.default_compare x y ↔ String.le x y.
Proof.
  unfold Js.cmp_le, Js.default_compare, String.le, String.leb.
  destruct (String.compare x y); simpl; split; intros; try done; lia.
Qed.

Lemma default_compare_trans : Transitive (Js.cmp_le Js.default_compare).
Proof.
  intros x y z Hxy Hyz. apply default_compare_le.
  etrans; by apply default_compare_le.
Qed.

Lemma default_compare_total : Total (Js.cmp_le Js.default_compare).
Proof.
  intros x y.
  destruct (total String.le x y); [left|right]; by apply default_compare_le.
Qed.


(** *** The model of [new Set] *)

Lemma elem_of_set_add (seen : list string) (x y : string) :
  y ∈ Js.set_add seen x ↔ y ∈ seen ∨ y = x.
Proof.
  induction seen as [|z seen IH]; simpl.
  - rewrite list_elem_of_singleton, elem_of_nil. tauto.
  - destruct (String.eqb z x) eqn:E.
    + apply String.eqb_eq in E. subst z. rewrite elem_of_cons. tauto.
    + rewrite !elem_of_cons, IH. tauto.
Qed.

Lemma NoDup_set_add (seen : list string) (x : string) :
  NoDup seen → NoDup (Js.set_add seen x).
Proof.
  induction seen as [|z seen IH]; simpl; intros Hnd.
  - apply NoDup_singleton.
  - destruct (String.eqb z x) eqn:E; [done|].
    apply String.eqb_neq in E.
    apply NoDup_cons in Hnd as [Hz Hnd]. apply NoDup_cons. split.
    + rewrite elem_of_set_add. intros [?|?]; congruence.
    + by apply IH.
  Qed.

Lemma set_of_array_from (a seen : list string) :
  NoDup seen →
  NoDup (fold_left Js.set_add a seen)
  ∧ ∀ y, y ∈ fold_left Js.set_add a seen ↔ y ∈ seen ∨ y ∈ a.
Proof.
  revert seen. induction a as [|x a IH]; simpl; intros seen Hnd.
  - split; [done|]. intros y. rewrite elem_of_nil. tauto.
  - destruct (IH (Js.set_add seen x) (NoDup_set_add _ _ Hnd)) as [H1 H2].
    split; [done|]. intros y. rewrite H2, elem_of_set_add, elem_of_cons.
    tauto.
Qed.

Lemma set_of_array_spec (a : list string) :
  NoDup (Js.set_of_array a) ∧ ∀ y, y ∈ Js.set_of_array a ↔ y ∈ a.
Proof.
  destruct (set_of_array_from a [] (NoDup_nil_2)) as [H1 H2].
  split; [done|]. intros y. unfold Js.set_of_array.
  rewrite H2, elem_of_nil. tauto.
Qed.

(** *** Sorting the catalog *)

Example sort_unknown_mode :
  filteredData
    (sortKCs (λ _ _, 1) "newest"
       (mkState sample_catalog sample_catalog [] NotRendered))
  = sample_catalog.
Proof. reflexivity. Qed.

Example sort_title_asc :
  title <$> filteredData
    (sortKCs Js.default_compare "title-asc"
       (mkState sample_catalog sample_catalog [] NotRendered))
  = ["AMIs"; "Buckets"; "Instances"].
Proof. reflexivity. Qed.

Lemma compareKCs_unrecognized (localeCompare : string → string → Z)
    (sortValue : string) (a b : CatalogEntry) :
  recognized_mode sortValue = false →
  compareKCs localeCompare sortValue a b = 0.
Proof.
  unfold recognized_mode, compareKCs. intros H.
  repeat (apply orb_false_elim in H as [H ?]).
  by repeat match goal with E : String.eqb _ _ = false |- _ => rewrite E; clear E end.
Qed.

(** C6: for every catalog list and every sort mode that is none of
    [title-asc], [title-desc], [topic-asc], [topic-desc], whatever the
    locale comparison answers, [sortKCs] leaves the list in its input
    order (and shows it in that order). *)
Theorem sortKCs_unrecognized_keeps_order
    (localeCompare : string → string → Z) (sortValue : string) (st : state) :
  recognized_mode sortValue = false →
  filteredData (sortKCs localeCompare sortValue st) = filteredData st
  ∧ kcData (sortKCs localeCompare sortValue st) = kcData st
  ∧ sortKCs localeCompare sortValue st = renderKCList st.
Proof.
  intros H. unfold sortKCs.
  rewrite array_sort_all_equal
    by (intros a b; by apply compareKCs_unrecognized).
  by destruct st.
Qed.

Lemma sortKCs_unrecognized_keeps_order_witness :
  filteredData
    (sortKCs (λ _ _, 1) "newest"
       (mkState sample_catalog sample_catalog [] NotRendered))
  = sample_catalog.
Proof.
  apply (sortKCs_unrecognized_keeps_order (λ _ _, 1) "newest"
           (mkState sample_catalog sample_catalog [] NotRendered)).
  reflexivity.
Defined.

(** *** The topic filter *)

(** The scenario of the specification: topics EC2, S3, EC2. *)
Example populateTopicFilter_scenario :
  value <$> topicFilter
    (populateTopicFilter (mkState sample_catalog sample_catalog [] NotRendered))
  = [""; "EC2"; "S3"].
Proof. reflexivity. Qed.

Example topics_code_unit_order :
  topics_of [mkEntry "a" "s3" "a.json"; mkEntry "b" "EC2" "b.json";
             mkEntry "c" "S3" "c.json"]
  = ["EC2"; "S3"; "s3"].
Proof. reflexivity. Qed.




(** *** Sorting, filtering and loading the catalog *)

Lemma sort_insert_ext {A : Type} (c1 c2 : A → A → Z) (x : A) (l : list A) :
  (∀ y, y ∈ l → c1 x y = c2 x y) →
  Js.sort_insert c1 x l = Js.sort_insert c2 x l.
Proof.
  induction l as [|y l IH]; intros H; simpl; [done|].
  rewrite (H y) by apply list_elem_of_here.
  destruct (c2 x y <=? 0); [done|]. f_equal. apply IH.
  intros z Hz. apply H. by apply list_elem_of_further.
Qed.

(** Comparators that agree on the elements of a list sort it alike. *)
Lemma array_sort_ext {A : Type} (c1 c2 : A → A → Z) (l : list A) :
  (∀ x y, x ∈ l → y ∈ l → c1 x y = c2 x y) →
  Js.array_sort c1 l = Js.array_sort c2 l.
Proof.
  induction l as [|x l IH]; intros H; simpl; [done|].
  rewrite IH.
  - apply sort_insert_ext. intros y Hy. apply H.
    + apply list_elem_of_here.
    + apply list_elem_of_further. by rewrite array_sort_perm in Hy.
  - intros a b Ha Hb. apply H; by apply list_elem_of_further.
Qed.

Lemma filteredData_sortKCs (lc : string → string → Z) (sortValue : string)
    (st : state) :
  filteredData (sortKCs lc sortValue st)
  = Js.array_sort (compareKCs lc sortValue) (filteredData st).
Proof. reflexivity. Qed.

(** Sorting never loses or duplicates an entry: in every mode, and for
    every answer the locale comparison may give (consistent or not),
    the sorted list is a permutation of the list before, and the
    catalog itself is untouched. *)
Theorem sortKCs_permutes (lc : string → string → Z) (sortValue : string)
    (st : state) :
  filteredData (sortKCs lc sortValue st) ≡ₚ filteredData st
  ∧ kcData (sortKCs lc sortValue st) = kcData st
  ∧ topicFilter (sortKCs lc sortValue st) = topicFilter st.
Proof.
  split; [|done]. rewrite filteredData_sortKCs. apply array_sort_perm.
Qed.

(** When the locale comparison is a total preorder, the mode
    [title-asc] leaves the list in ascending title order and
    [title-desc] in descending title order. *)
Theorem sortKCs_by_title (lc : string → string → Z) (st : state) :
  (∀ a b c, lc a b ≤ 0 → lc b c ≤ 0 → lc a c ≤ 0) →
  (∀ a b, lc a b ≤ 0 ∨ lc b a ≤ 0) →
  StronglySorted (λ a b, lc (title a) (title b) ≤ 0)
    (filteredData (sortKCs lc "title-asc" st))
  ∧ StronglySorted (λ a b, lc (title b) (title a) ≤ 0)
      (filteredData (sortKCs lc "title-desc" st)).
Proof.
  intros Htrans Htotal. rewrite !filteredData_sortKCs. split.
  - apply (array_sort_sorted (compareKCs lc "title-asc")).
    + intros a b c. unfold Js.cmp_le, compareKCs. simpl. apply Htrans.
    + intros a b. unfold Js.cmp_le, compareKCs. simpl. apply Htotal.
  - apply (array_sort_sorted (compareKCs lc "title-desc")).
    + intros a b c. unfold Js.cmp_le, compareKCs. simpl.
      intros H1 H2. by apply (Htrans _ _ _ H2 H1).
    + intros a b. unfold Js.cmp_le, compareKCs. simpl.
      destruct (Htotal (title a) (title b)); auto.
Qed.

Lemma sortKCs_by_title_witness :
  StronglySorted
    (λ a b, Js.default_compare (title a) (title b) ≤ 0)
    (filteredData
       (sortKCs Js.default_compare "title-asc"
          (mkState sample_catalog sample_catalog [] NotRendered))).
Proof.
  apply (sortKCs_by_title Js.default_compare
           (mkState sample_catalog sample_catalog [] NotRendered)).
  - intros a b c. apply default_compare_trans.
  - intros a b. apply default_compare_total.
Defined.

(** Ties on the topic are broken by ascending title in both topic
    modes: on a list whose entries all tie on the topic, [topic-desc]
    gives the order of [topic-asc], which is the order of [title-asc]
    (titles ascending, not descending). *)
Theorem sortKCs_topic_ties_ascending (lc : string → string → Z) (st : state) :
  (∀ a b, a ∈ filteredData st → b ∈ filteredData st →
          lc (topic a) (topic b) = 0) →
  filteredData (sortKCs lc "topic-desc" st)
  = filteredData (sortKCs lc "title-asc" st)
  ∧ filteredData (sortKCs lc "topic-asc" st)
    = filteredData (sortKCs lc "title-asc" st).
Proof.
  intros Htie. rewrite !filteredData_sortKCs. split.
  - apply array_sort_ext. intros a b Ha Hb.
    unfold compareKCs, num_or. simpl. by rewrite (Htie b a Hb Ha).
  - apply array_sort_ext. intros a b Ha Hb.
    unfold compareKCs, num_or. simpl. by rewrite (Htie a b Ha Hb).
Qed.

Lemma sortKCs_topic_ties_ascending_witness :
  filteredData
    (sortKCs Js.default_compare "topic-desc"
       (mkState sample_catalog same_topic_catalog [] NotRendered))
  = filteredData
      (sortKCs Js.default_compare "title-asc"
         (mkState sample_catalog same_topic_catalog [] NotRendered)).
Proof.
  apply (sortKCs_topic_ties_ascending Js.default_compare
           (mkState sample_catalog same_topic_catalog [] NotRendered)).
  intros a b Ha Hb. simpl in Ha, Hb. unfold same_topic_catalog in Ha, Hb.
  rewrite !elem_of_cons, elem_of_nil in Ha, Hb.
  destruct Ha as [->|[->|[]]], Hb as [->|[->|[]]]; reflexivity.
Defined.

Lemma filteredData_filterKCs (lc : string → string → Z)
    (searchInput topicValue sortValue : string) (st : state) :
  filteredData (filterKCs lc searchInput topicValue sortValue st)
  = Js.array_sort (compareKCs lc sortValue)
      (List.filter (kc_matches (Js.toLowerCase searchInput) topicValue)
         (kcData st)).
Proof. reflexivity. Qed.

(** [filterKCs] shows exactly the catalog entries that match, each as
    often as the catalog lists it: an entry is shown when its title or
    its topic contains the search text, case ignored, and, if a topic is
    chosen, its topic is exactly that topic.  The catalog is untouched,
    so the filter is not cumulative. *)
Theorem filterKCs_shows_matches (lc : string → string → Z)
    (searchInput topicValue sortValue : string) (st : state) :
  let st' := filterKCs lc searchInput topicValue sortValue st in
  filteredData st'
  ≡ₚ List.filter (kc_matches (Js.toLowerCase searchInput) topicValue)
       (kcData st)
  ∧ kcData st' = kcData st
  ∧ (∀ kc, kc ∈ filteredData st' →
       kc ∈ kcData st
       ∧ (Js.includes (Js.toLowerCase (title kc)) (Js.toLowerCase searchInput)
          = true
          ∨ Js.includes (Js.toLowerCase (topic kc))
              (Js.toLowerCase searchInput) = true)
       ∧ (topicValue ≠ "" → topic kc = topicValue)).
Proof.
  intros st'. subst st'. rewrite filteredData_filterKCs.
  split; [apply array_sort_perm|]. split; [done|].
  intros kc. rewrite array_sort_perm, list_elem_of_In, filter_In.
  intros [Hin Hm]. split; [by apply list_elem_of_In|].
  unfold kc_matches in Hm. apply andb_true_iff in Hm as [Hs Ht].
  split; [by apply orb_true_iff in Hs|].
  intros Hne. apply orb_true_iff in Ht as [Ht|Ht].
  - apply String.eqb_eq in Ht. contradiction.
  - by apply String.eqb_eq in Ht.
Qed.

Lemma filterKCs_shows_matches_witness :
  topic (mkEntry "Buckets" "S3" "s3.json") = "S3".
Proof.
  apply (proj2 (proj2 (filterKCs_shows_matches Js.default_compare "" "S3"
                         "title-asc"
                         (mkState sample_catalog [] [] NotRendered)))
           (mkEntry "Buckets" "S3" "s3.json")).
  - apply list_elem_of_here.
  - discriminate.
Defined.

(** Every topic the dropdown offers finds something: choosing a topic
    that [populateTopicFilter] listed, with an empty search box, never
    gives an empty list, and every entry shown has that topic. *)
Theorem dropdown_topic_finds_entries (lc : string → string → Z)
    (t sortValue : string) (st : state) :
  mkDropdownOption t t ∈ topicFilter (populateTopicFilter st) →
  t ≠ "" →
  let st' := filterKCs lc "" t sortValue (populateTopicFilter st) in
  filteredData st' ≠ []
  ∧ Forall (λ kc, topic kc = t) (filteredData st')
  ∧ container st' = KcCards (filteredData st').
Proof.
  intros Hopt Hne st'.
  assert (Ht : t ∈ topics_of (kcData st)).
  { simpl in Hopt. apply elem_of_cons in Hopt as [Heq|Hin].
    - injection Heq as ->. contradiction.
    - apply list_elem_of_fmap in Hin as (t' & Heq & Hin).
      injection Heq as ->. exact Hin. }
  unfold topics_of in Ht. rewrite array_sort_perm in Ht.
  destruct (set_of_array_spec (topic <$> kcData st)) as [_ Hset].
  apply Hset in Ht. apply list_elem_of_fmap in Ht as (kc & -> & Hkc).
  assert (Hin : kc ∈ filteredData st').
  { subst st'. rewrite filteredData_filterKCs, array_sort_perm.
    apply list_elem_of_In, filter_In. split; [by apply list_elem_of_In|].
    unfold kc_matches. simpl. rewrite JsFacts.includes_empty. simpl.
    rewrite String.eqb_refl. by rewrite orb_true_r. }
  assert (Hnn : filteredData st' ≠ []).
  { intros E. rewrite E in Hin. by apply elem_of_nil in Hin. }
  split; [exact Hnn|]. split.
  - apply Forall_forall. intros kc' Hkc'.
    subst st'. rewrite filteredData_filterKCs, array_sort_perm in Hkc'.
    apply list_elem_of_In, filter_In in Hkc' as [_ Hm].
    unfold kc_matches in Hm. apply andb_true_iff in Hm as [_ Hm].
    apply orb_true_iff in Hm as [Hm|Hm]; apply String.eqb_eq in Hm;
      [contradiction|done].
  - subst st'. unfold filterKCs, sortKCs, renderKCList in *. simpl in *.
    destruct (Js.array_sort _ _); [done|reflexivity].
Qed.

Lemma dropdown_topic_finds_entries_witness :
  filteredData
    (filterKCs Js.default_compare "" "EC2" "title-asc"
       (populateTopicFilter (mkState sample_catalog [] [] NotRendered)))
  ≠ [].
Proof.
  apply (dropdown_topic_finds_entries Js.default_compare "EC2" "title-asc"
           (mkState sample_catalog [] [] NotRendered)).
  - simpl. apply list_elem_of_further, list_elem_of_here.
  - discriminate.
Defined.

(** A successful load shows the whole catalog, each entry once, and an
    empty catalog shows the "nothing found" message.  A load without a
    body shows the error and holds no entry, and the next use of the
    search box replaces the error by the "nothing found" message.  A
    parsed body without the array [knowledgeChecks] shows the error and
    leaves [kcData] undefined: the search box then throws and the error
    stays, while a change of the sort order replaces it by "nothing
    found". *)
Theorem loadKCList_shows_catalog (lc : string → string → Z)
    (kcs : list CatalogEntry) (sortValue searchInput topicValue : string) :
  let ok := loadKCList lc (Catalog kcs) sortValue blank in
  let failed := loadKCList lc NoBody sortValue blank in
  let broken := loadKCList lc NoCatalog sortValue blank in
  (kcData_undefined ok = false
   ∧ kcData (lists ok) = kcs
   ∧ filteredData (lists ok) ≡ₚ kcs
   ∧ (container (lists ok) = NoneFound ↔ kcs = [])
   ∧ (kcs ≠ [] → container (lists ok) = KcCards (filteredData (lists ok))))
  ∧ (container (lists failed) = LoadError
     ∧ kcData_undefined failed = false
     ∧ kcData (lists failed) = []
     ∧ returned (on_filter lc searchInput topicValue sortValue failed) = true
     ∧ container
         (lists (final (on_filter lc searchInput topicValue sortValue failed)))
       = NoneFound)
  ∧ (container (lists broken) = LoadError
     ∧ kcData_undefined broken = true
     ∧ on_filter lc searchInput topicValue sortValue broken = Threw broken
     ∧ container (lists (on_sort lc sortValue broken)) = NoneFound).
Proof.
  intros ok failed broken. subst ok failed broken.
  split; [|split; done].
  assert (Hperm : filteredData
                    (lists (loadKCList lc (Catalog kcs) sortValue blank))
                  ≡ₚ kcs).
  { unfold loadKCList. cbn [lists].
    rewrite filteredData_sortKCs. apply array_sort_perm. }
  split; [done|]. split; [done|]. split; [exact Hperm|].
  assert (Hc : container (lists (loadKCList lc (Catalog kcs) sortValue blank))
               = match filteredData
                         (lists (loadKCList lc (Catalog kcs) sortValue blank))
                 with
                 | [] => NoneFound
                 | _ :: _ =>
                     KcCards
                       (filteredData
                          (lists (loadKCList lc (Catalog kcs) sortValue blank)))
                 end) by reflexivity.
  split.
  - rewrite Hc. split.
    + destruct (filteredData _) eqn:E; [|discriminate].
      intros _. by apply Permutation_nil_l in Hperm.
    + intros ->. by apply Permutation_nil_r in Hperm as ->.
  - intros Hne. rewrite Hc.
    destruct (filteredData _) eqn:E; [|done].
    by apply Permutation_nil_l in Hperm.
Qed.

Lemma loadKCList_shows_catalog_witness :
  container
    (lists (loadKCList Js.default_compare (Catalog sample_catalog)
              "title-asc" blank))
  = KcCards
      (filteredData
         (lists (loadKCList Js.default_compare (Catalog sample_catalog)
                   "title-asc" blank))).
Proof.
  refine (proj2 (proj2 (proj2 (proj2 (proj1
            (loadKCList_shows_catalog Js.default_compare sample_catalog
               "title-asc" "" ""))))) _).
  discriminate.
Defined.

End KCListProofs.

(** ** Knowledge-check engine *)

Module KnowledgeCheckProofs.
Import KnowledgeCheck.

(** *** Shuffling *)

Example shuffle_sample :
  (λ q, (id q, displayNumber q)) <$> shuffle_array sample_rnd sample_questions
  = [(3, Some 1%nat); (1, Some 2%nat); (2, Some 3%nat)].
Proof. reflexivity. Qed.

(** [Math.floor(Math.random() * (i + 1))] is one of [0..i]. *)
Lemma floor_scaled_le (r : draw) (i : nat) :
  (floor_scaled r (i + 1) ≤ i)%nat.
Proof.
  unfold floor_scaled.
  enough (num r * (i + 1) / (num r + slack r + 1) < i + 1)%nat by lia.
  apply Nat.Div0.div_lt_upper_bound. nia.
Qed.

(** Inside the array, [swap] is the exchange of the two cells. *)
Lemma swap_in_range (i j : nat) (a : list question) :
  (j ≤ i)%nat → (i < length a)%nat →
  ∃ qi qj, a !! i = Some qi ∧ a !! j = Some qj
           ∧ swap i j a = <[j := qi]> (<[i := qj]> a).
Proof.
  intros Hji Hi.
  destruct (lookup_lt_is_Some_2 a i Hi) as [qi Hqi].
  destruct (lookup_lt_is_Some_2 a j ltac:(lia)) as [qj Hqj].
  exists qi, qj. unfold swap. by rewrite Hqi, Hqj.
Qed.

Lemma swap_perm (i j : nat) (a : list question) : swap i j a ≡ₚ a.
Proof.
  unfold swap.
  destruct (a !! i) as [qi|] eqn:Hi; [|done].
  destruct (a !! j) as [qj|] eqn:Hj; [|done].
  by apply Permutation_insert_swap.
Qed.

Lemma shuffle_loop_perm (rnd : nat → draw) (i : nat) (a : list question) :
  shuffle_loop rnd i a ≡ₚ a.
Proof.
  revert rnd a. induction i as [|i IH]; intros rnd a; simpl; [done|].
  by rewrite IH, swap_perm.
Qed.

Lemma renumber_ids (a : list question) : id <$> renumber a = id <$> a.
Proof.
  unfold renumber. apply list_eq. intros k.
  rewrite !list_lookup_fmap, list_lookup_imap.
  by destruct (a !! k).
Qed.

Lemma renumber_numbers (a : list question) :
  displayNumber <$> renumber a = Some <$> seq 1 (length a).
Proof.
  unfold renumber. apply list_eq. intros k.
  rewrite !list_lookup_fmap, list_lookup_imap.
  destruct (a !! k) as [q|] eqn:Hk; simpl.
  - rewrite lookup_seq_lt by (by eapply lookup_lt_Some).
    simpl. do 2 f_equal. lia.
  - rewrite lookup_seq_ge by (by apply lookup_ge_None). done.
Qed.

(** C3: for every list of [N] questions and every sequence of random
    values, the ids of the list [shuffleQuestions] leaves are a
    permutation of the ids it was given (none lost, none duplicated), and
    the [displayNumber] fields, in list order, are exactly 1, 2, ..., N. *)
Theorem shuffleQuestions_permutes (rnd : nat → draw) (qs : list question)
    (sa : gmap Z answer) :
  ∃ qs',
    shuffleQuestions rnd (mkEngine (Some (mkData (Some qs))) sa)
    = mkEngine (Some (mkData (Some qs'))) sa
    ∧ id <$> qs' ≡ₚ id <$> qs
    ∧ displayNumber <$> qs' = Some <$> seq 1 (length qs)
    ∧ length qs' = length qs.
Proof.
  exists (shuffle_array rnd qs). split; [reflexivity|].
  assert (Hperm : shuffle_loop rnd (length qs - 1) qs ≡ₚ qs)
    by apply shuffle_loop_perm.
  unfold shuffle_array. repeat split.
  - rewrite renumber_ids. by rewrite Hperm.
  - rewrite renumber_numbers. by rewrite Hperm.
  - unfold renumber. rewrite length_imap. by rewrite Hperm.
Qed.

(** Each iteration of the loop exchanges two cells of the array: the
    index drawn is never outside it. *)
Lemma shuffle_loop_exchanges (rnd : nat → draw) (i : nat) (a : list question) :
  (S i < length a)%nat →
  ∃ j qi qj,
    (j ≤ S i)%nat ∧ a !! S i = Some qi ∧ a !! j = Some qj
    ∧ shuffle_loop rnd (S i) a
      = shuffle_loop (λ k, rnd (S k)) i (<[j := qi]> (<[S i := qj]> a))
    ∧ length (<[j := qi]> (<[S i := qj]> a)) = length a.
Proof.
  intros Hi. cbn [shuffle_loop].
  pose proof (floor_scaled_le (rnd O) (S i)) as Hj.
  destruct (swap_in_range (S i) (floor_scaled (rnd O) (S i + 1)) a Hj Hi)
    as (qi & qj & H1 & H2 & H3).
  exists (floor_scaled (rnd O) (S i + 1)), qi, qj.
  rewrite H3, !length_insert. done.
Qed.

(** *** Selection *)

Example select_two_then_third :
  selectedAnswers
    (run [mkClick 2 "A" true; mkClick 2 "B" true; mkClick 2 "C" true]
       (init sample_data)) !! 2
  = Some (Multi ["A"; "B"]).
Proof. reflexivity. Qed.

Example deselect_then_select :
  selectedAnswers
    (run [mkClick 2 "A" true; mkClick 2 "B" true; mkClick 2 "A" true;
          mkClick 2 "C" true]
       (init sample_data)) !! 2
  = Some (Multi ["B"; "C"]).
Proof. reflexivity. Qed.

Example single_click_twice :
  selectedAnswers
    (run [mkClick 1 "A" false; mkClick 1 "A" false] (init sample_data)) !! 1
  = Some (Single "A").
Proof. reflexivity. Qed.

Lemma renderSpecificQuestion_state (q : Z) (e : engine) :
  final (renderSpecificQuestion q e) = e.
Proof.
  unfold renderSpecificQuestion.
  destruct (data e) as [[[?|]]|]; reflexivity.
Qed.

Lemma existsb_eqb_elem_of (os : list string) (o : string) :
  existsb (λ o', String.eqb o' o) os = true ↔ o ∈ os.
Proof.
  induction os as [|x os IH]; simpl.
  - rewrite elem_of_nil. split; [discriminate|tauto].
  - rewrite orb_true_iff, IH, elem_of_cons, String.eqb_eq.
    split; intros [?|?]; auto.
Qed.

Lemma isSelected_multi (v : option answer) (o : string) :
  isSelected true v o = true ↔ ∃ os, v = Some (Multi os) ∧ o ∈ os.
Proof.
  unfold isSelected. destruct v as [[s|os]|].
  - split; [discriminate|]. intros (os & H & _). discriminate.
  - rewrite existsb_eqb_elem_of. split.
    + intros H. by exists os.
    + intros (os' & H & Hin). by simplify_eq.
  - split; [discriminate|]. intros (os & H & _). discriminate.
Qed.

Lemma isSelected_single (v : option answer) (o : string) :
  isSelected false v o = true ↔ v = Some (Single o).
Proof.
  unfold isSelected. destruct v as [[s|os]|].
  - rewrite String.eqb_eq. split; congruence.
  - split; discriminate.
  - split; discriminate.
Qed.

(** [indexOf] answers [-1] for an absent id and the first position of a
    present one. *)
Lemma arr_indexOf_from_spec (n : Z) (a : list string) (x : string) :
  0 ≤ n →
  ((x ∉ a) ∧ Js.arr_indexOf_from n a x = -1)
  ∨ (∃ k : nat, Js.arr_indexOf_from n a x = n + Z.of_nat k
                ∧ a !! k = Some x).
Proof.
  revert n. induction a as [|y a IH]; intros n Hn; simpl.
  - left. split; [apply not_elem_of_nil|done].
  - destruct (String.eqb y x) eqn:E.
    + apply String.eqb_eq in E. subst y. right. exists O.
      split; [lia|done].
    + apply String.eqb_neq in E.
      destruct (IH (n + 1) ltac:(lia)) as [[Hnin Hm1]|(k & Hk & Hlk)].
      * left. split; [|done]. rewrite elem_of_cons. intros [?|?]; auto.
      * right. exists (S k). split; [lia|done].
Qed.

Lemma arr_indexOf_spec (a : list string) (x : string) :
  ((x ∉ a) ∧ Js.arr_indexOf a x = -1)
  ∨ (∃ k : nat, Js.arr_indexOf a x = Z.of_nat k ∧ a !! k = Some x).
Proof.
  destruct (arr_indexOf_from_spec 0 a x ltac:(lia)) as [?|(k & Hk & ?)];
    [by left|right].
  exists k. unfold Js.arr_indexOf. split; [lia|done].
Qed.

Lemma not_elem_of_delete (a : list string) (k : nat) (x : string) :
  NoDup a → a !! k = Some x → x ∉ delete k a.
Proof.
  intros Hnd Hk. rewrite delete_take_drop.
  rewrite <- (take_drop_middle a k x Hk) in Hnd.
  apply NoDup_app in Hnd as (_ & Hdisj & Hnd).
  apply NoDup_cons in Hnd as [Hx _].
  rewrite elem_of_app. intros [Hin|Hin]; [|done].
  apply (Hdisj x Hin). apply elem_of_cons. by left.
Qed.

Lemma multi_step_capped (os : list string) (o : string) :
  (length os ≤ 2)%nat → NoDup os →
  (length (multi_step os o) ≤ 2)%nat ∧ NoDup (multi_step os o).
Proof.
  intros Hlen Hnd. unfold multi_step.
  destruct (arr_indexOf_spec os o) as [[Hnin ->]|(k & -> & Hk)].
  - simpl. destruct (length os <? 2)%nat eqn:E; [|done].
    apply Nat.ltb_lt in E. rewrite length_app. simpl. split; [lia|].
    apply NoDup_app. repeat split; [done| |apply NoDup_singleton].
    intros x Hx Hx'. apply list_elem_of_singleton in Hx'. by subst.
  - replace (Z.of_nat k >? -1) with true by (symmetry; apply Z.gtb_lt; lia).
    rewrite Nat2Z.id. split.
    + rewrite length_delete by eauto. lia.
    + eapply sublist_NoDup; [exact Hnd|apply sublist_delete].
Qed.

Lemma capped_insert_multi (sa : gmap Z answer) (q : Z) (os : list string) :
  capped sa → (length os ≤ 2)%nat → NoDup os → capped (<[q := Multi os]> sa).
Proof.
  intros Hc Hlen Hnd q' os' Hq'.
  destruct (decide (q = q')) as [->|Hne].
  - rewrite lookup_insert_eq in Hq'. by simplify_eq.
  - rewrite lookup_insert_ne in Hq' by done. by apply (Hc q').
Qed.

Lemma capped_insert_single (sa : gmap Z answer) (q : Z) (s : string) :
  capped sa → capped (<[q := Single s]> sa).
Proof.
  intros Hc q' os' Hq'.
  destruct (decide (q = q')) as [->|Hne].
  - rewrite lookup_insert_eq in Hq'. discriminate.
  - rewrite lookup_insert_ne in Hq' by done. by apply (Hc q').
Qed.

(** A click on an option of a question whose entry is an array. *)
Lemma selectOption_on_array (e : engine) (q : Z) (o : string)
    (os : list string) :
  selectedAnswers e !! q = Some (Multi os) →
  selectedAnswers (final (selectOption q o true e))
  = <[q := Multi (multi_step os o)]> (selectedAnswers e).
Proof.
  intros Hq. unfold selectOption. rewrite Hq. simpl. rewrite Hq.
  by rewrite renderSpecificQuestion_state.
Qed.

(** A click on an option of a single-select question. *)
Lemma selectOption_single (e : engine) (q : Z) (o : string) :
  selectedAnswers (final (selectOption q o false e))
  = <[q := Single o]> (selectedAnswers e).
Proof.
  unfold selectOption. by rewrite renderSpecificQuestion_state.
Qed.

Lemma selectOption_capped (e : engine) (q : Z) (o : string) (m : bool) :
  capped (selectedAnswers e) →
  capped (selectedAnswers (final (selectOption q o m e))).
Proof.
  intros Hc. destruct m.
  - destruct (selectedAnswers e !! q) as [[s|os]|] eqn:Hq.
    + unfold selectOption. rewrite Hq. simpl.
      destruct (String.eqb s "") eqn:Es.
      * rewrite lookup_insert_eq, renderSpecificQuestion_state. simpl.
        rewrite insert_insert_eq.
        apply capped_insert_multi; [done|apply multi_step_capped..];
          simpl; auto using NoDup_nil_2 with lia.
      * rewrite Hq.
        destruct (Js.str_indexOf s o >? -1); [done|].
        destruct (String.length s <? 2)%nat; [done|].
        by rewrite renderSpecificQuestion_state.
    + rewrite (selectOption_on_array e q o os Hq).
      destruct (Hc q os Hq) as [Hlen Hnd].
      apply capped_insert_multi; [done|by apply multi_step_capped..].
    + unfold selectOption. rewrite Hq. simpl.
      rewrite lookup_insert_eq, renderSpecificQuestion_state. simpl.
      rewrite insert_insert_eq.
      apply capped_insert_multi; [done|apply multi_step_capped..];
        simpl; auto using NoDup_nil_2 with lia.
  - rewrite selectOption_single. by apply capped_insert_single.
Qed.

(** The cap holds in every state a sequence of clicks reaches. *)
Lemma run_capped (cs : list click) (e : engine) :
  capped (selectedAnswers e) → capped (selectedAnswers (run cs e)).
Proof.
  revert e. induction cs as [|c cs IH]; intros e Hc; simpl; [done|].
  apply IH. by apply selectOption_capped.
Qed.

Lemma init_capped (d : option kc_data) : capped (selectedAnswers (init d)).
Proof. intros q os Hq. simpl in Hq. by rewrite lookup_empty in Hq. Qed.

Lemma reachable_capped (d : option kc_data) (cs : list click) :
  capped (selectedAnswers (run cs (init d))).
Proof. apply run_capped, init_capped. Qed.

Lemma arr_indexOf_absent (os : list string) (c : string) :
  c ∉ os → Js.arr_indexOf os c = -1.
Proof.
  intros Hc. destruct (arr_indexOf_spec os c) as [[_ H]|(k & _ & Hk)]; [done|].
  exfalso. apply Hc. by eapply list_elem_of_lookup_2.
Qed.

(** At the cap, an id that is not held is not added. *)
Lemma multi_step_full (os : list string) (c : string) :
  length os = 2%nat → c ∉ os → multi_step os c = os.
Proof.
  intros Hlen Hc. unfold multi_step. rewrite arr_indexOf_absent by done.
  simpl. by rewrite Hlen.
Qed.

(** Below the cap, an id that is not held is appended. *)
Lemma multi_step_add (os : list string) (c : string) :
  (length os < 2)%nat → c ∉ os → multi_step os c = os ++ [c].
Proof.
  intros Hlen Hc. unfold multi_step. rewrite arr_indexOf_absent by done.
  simpl. apply Nat.ltb_lt in Hlen. by rewrite Hlen.
Qed.

(** An id that is held is taken out, and nothing else changes. *)
Lemma multi_step_deselect (os : list string) (o : string) :
  NoDup os → o ∈ os →
  (o ∉ multi_step os o)
  ∧ (∀ x, x ≠ o → (x ∈ multi_step os o ↔ x ∈ os))
  ∧ multi_step os o `sublist_of` os
  ∧ length (multi_step os o) = (length os - 1)%nat.
Proof.
  intros Hnd Hin. unfold multi_step.
  destruct (arr_indexOf_spec os o) as [[Hnin _]|(k & -> & Hk)]; [done|].
  replace (Z.of_nat k >? -1) with true by (symmetry; apply Z.gtb_lt; lia).
  rewrite Nat2Z.id. split; [by apply not_elem_of_delete|].
  split; [|split].
  - intros x Hx. rewrite delete_take_drop.
    transitivity (x ∈ take k os ++ o :: drop (S k) os).
    + rewrite !elem_of_app, elem_of_cons. tauto.
    + by rewrite (take_drop_middle os k o Hk).
  - apply sublist_delete.
  - apply length_delete. eauto.
Qed.

(** C1, as stated, fails for a single-select question: after a click on
    option A of question 1, A is the selected option; a second click on A
    leaves A selected, and the question is not back to having no
    selection. *)
Lemma single_reclick_stays_selected :
  isSelected false (selectedAnswers answered_A !! 1) "A" = true
  ∧ selectedAnswers (final (selectOption 1 "A" false answered_A)) !! 1
    = Some (Single "A")
  ∧ selectedAnswers (final (selectOption 1 "A" false answered_A)) !! 1 ≠ None
  ∧ isSelected false
      (selectedAnswers (final (selectOption 1 "A" false answered_A)) !! 1) "A"
    = true.
Proof. repeat split. discriminate. Qed.

(** C1 (amended): in every state a sequence of clicks reaches, for every
    question and every option currently selected for it, [selectOption]
    on that pair acts as follows.  For a multi-select question the option
    id is removed from the selection array (the other ids stay, in
    order, and the option is no longer selected).  For a single-select
    question the selection is left as it is: the option stays
    selected. *)
Theorem selectOption_reclick (d : option kc_data) (cs : list click)
    (q : Z) (o : string) :
  let e := run cs (init d) in
  (isSelected true (selectedAnswers e !! q) o = true →
   ∃ os os',
     selectedAnswers e !! q = Some (Multi os)
     ∧ selectedAnswers (final (selectOption q o true e))
       = <[q := Multi os']> (selectedAnswers e)
     ∧ (o ∉ os')
     ∧ (∀ x, x ≠ o → (x ∈ os' ↔ x ∈ os))
     ∧ os' `sublist_of` os
     ∧ isSelected true
         (selectedAnswers (final (selectOption q o true e)) !! q) o = false)
  ∧ (isSelected false (selectedAnswers e !! q) o = true →
     selectedAnswers (final (selectOption q o false e)) = selectedAnswers e
     ∧ isSelected false
         (selectedAnswers (final (selectOption q o false e)) !! q) o = true).
Proof.
  intros e. split.
  - intros Hsel. apply isSelected_multi in Hsel as (os & Hq & Hin).
    destruct (reachable_capped d cs q os Hq) as [_ Hnd].
    destruct (multi_step_deselect os o Hnd Hin) as (H1 & H2 & H3 & _).
    exists os, (multi_step os o).
    rewrite (selectOption_on_array e q o os Hq).
    repeat split; try done; try apply H2; try done.
    rewrite lookup_insert_eq.
    destruct (isSelected true (Some (Multi (multi_step os o))) o) eqn:E;
      [|done].
    apply isSelected_multi in E as (os' & Hos' & Hin'). by simplify_eq.
  - intros Hsel. apply isSelected_single in Hsel.
    rewrite selectOption_single, insert_id by done.
    split; [done|]. by apply isSelected_single.
Qed.

Lemma selectOption_reclick_witness :
  selectedAnswers
    (final (selectOption 1 "A" false
              (run [mkClick 1 "A" false] (init sample_data))))
  = selectedAnswers (run [mkClick 1 "A" false] (init sample_data))
  ∧ isSelected true
      (selectedAnswers
         (final (selectOption 2 "B" true
                   (run [mkClick 2 "A" true; mkClick 2 "B" true]
                      (init sample_data)))) !! 2) "B"
    = false.
Proof.
  split.
  - apply (selectOption_reclick sample_data [mkClick 1 "A" false] 1 "A").
    reflexivity.
  - destruct (selectOption_reclick sample_data
                [mkClick 2 "A" true; mkClick 2 "B" true] 2 "B") as [Hm _].
    destruct (Hm eq_refl) as (os & os' & _ & _ & _ & _ & _ & H).
    exact H.
Defined.

(** Deselecting one of two ids leaves the other one alone. *)
Lemma multi_step_two (a b x : string) :
  a ≠ b → x ∈ [a; b] →
  ∃ y, y ∈ [a; b] ∧ y ≠ x ∧ (∀ z, z ∈ [a; b] → z = x ∨ z = y)
       ∧ multi_step [a; b] x = [y].
Proof.
  intros Hab Hx. rewrite !elem_of_cons, elem_of_nil in Hx.
  destruct Hx as [->|[->|[]]].
  - exists b. repeat split.
    + rewrite !elem_of_cons. auto.
    + congruence.
    + intros z. rewrite !elem_of_cons, elem_of_nil. tauto.
    + unfold multi_step, Js.arr_indexOf. simpl.
      by rewrite String.eqb_refl.
  - exists a. repeat split.
    + rewrite !elem_of_cons. auto.
    + congruence.
    + intros z. rewrite !elem_of_cons, elem_of_nil. tauto.
    + unfold multi_step, Js.arr_indexOf. simpl.
      apply String.eqb_neq in Hab. by rewrite Hab, String.eqb_refl.
Qed.

(** C2: in every state a sequence of [selectOption] calls reaches, an
    array held in [selectedAnswers] has at most 2 ids.  When it has 2,
    [selectOption] with a third, different id leaves [selectedAnswers]
    unchanged; and after one of the 2 is deselected, [selectOption] with
    a new id adds it after the one that stayed. *)
Theorem selectOption_multi_cap (d : option kc_data) (cs : list click)
    (q : Z) (os : list string) :
  let e := run cs (init d) in
  selectedAnswers e !! q = Some (Multi os) →
  (length os ≤ 2)%nat
  ∧ (length os = 2%nat → ∀ c, c ∉ os →
     selectedAnswers (final (selectOption q c true e)) = selectedAnswers e)
  ∧ (length os = 2%nat → ∀ x c, x ∈ os → c ∉ os →
     ∃ y, y ∈ os ∧ y ≠ x ∧ (∀ z, z ∈ os → z = x ∨ z = y)
          ∧ selectedAnswers (final (selectOption q x true e)) !! q
            = Some (Multi [y])
          ∧ selectedAnswers
              (final (selectOption q c true (final (selectOption q x true e))))
              !! q
            = Some (Multi [y; c])).
Proof.
  intros e Hq. destruct (reachable_capped d cs q os Hq) as [Hlen Hnd].
  split; [done|]. split.
  - intros H2 c Hc. rewrite (selectOption_on_array e q c os Hq).
    rewrite multi_step_full by done. by apply insert_id.
  - intros H2 x c Hx Hc.
    destruct os as [|a [|b [|? ?]]]; simpl in H2; try lia.
    assert (Hab : a ≠ b).
    { apply NoDup_cons in Hnd as [Ha _]. intros ->. apply Ha.
      apply elem_of_cons. by left. }
    destruct (multi_step_two a b x Hab Hx) as (y & Hy & Hyx & Hall & Hstep).
    exists y. split; [done|]. split; [done|]. split; [done|].
    assert (H1 : selectedAnswers (final (selectOption q x true e)) !! q
                 = Some (Multi [y])).
    { rewrite (selectOption_on_array e q x [a; b] Hq), lookup_insert_eq.
      by rewrite Hstep. }
    split; [done|].
    rewrite (selectOption_on_array _ q c [y] H1), lookup_insert_eq.
    rewrite multi_step_add; [done|simpl; lia|].
    intros Hcy. apply list_elem_of_singleton in Hcy. by subst.
Qed.

Lemma selectOption_multi_cap_witness :
  selectedAnswers
    (final (selectOption 2 "C" true
              (run [mkClick 2 "A" true; mkClick 2 "B" true]
                 (init sample_data))))
  = selectedAnswers
      (run [mkClick 2 "A" true; mkClick 2 "B" true] (init sample_data)).
Proof.
  refine (proj1 (proj2 (selectOption_multi_cap sample_data
                          [mkClick 2 "A" true; mkClick 2 "B" true] 2
                          ["A"; "B"] _)) _ "C" _).
  - reflexivity.
  - reflexivity.
  - rewrite !elem_of_cons, elem_of_nil.
    intros [H|[H|[]]]; discriminate H.
Defined.

(** *** What a click changes *)

Lemma renderSpecificQuestion_returns (q : Z) (e : engine)
    (qs : list question) :
  data e = Some {| questions := Some qs |} →
  renderSpecificQuestion q e = Returned e.
Proof. intros H. unfold renderSpecificQuestion. by rewrite H. Qed.

Lemma selectOption_cases (e : engine) (q : Z) (o : string) (m : bool) :
  data (final (selectOption q o m e)) = data e
  ∧ (selectedAnswers (final (selectOption q o m e)) = selectedAnswers e
     ∨ ∃ v, selectedAnswers (final (selectOption q o m e))
            = <[q := v]> (selectedAnswers e)).
Proof.
  destruct m.
  - destruct (selectedAnswers e !! q) as [[s|os]|] eqn:Hq.
    + unfold selectOption. rewrite Hq. simpl.
      destruct (String.eqb s "") eqn:Es.
      * rewrite lookup_insert_eq, renderSpecificQuestion_state. simpl.
        rewrite insert_insert_eq. eauto.
      * rewrite Hq.
        destruct (Js.str_indexOf s o >? -1); [simpl; auto|].
        destruct (String.length s <? 2)%nat; [simpl; auto|].
        rewrite renderSpecificQuestion_state. simpl. auto.
    + unfold selectOption. rewrite Hq. simpl. rewrite Hq.
      rewrite renderSpecificQuestion_state. simpl. eauto.
    + unfold selectOption. rewrite Hq. simpl.
      rewrite lookup_insert_eq, renderSpecificQuestion_state. simpl.
      rewrite insert_insert_eq. eauto.
  - unfold selectOption. rewrite renderSpecificQuestion_state. simpl. eauto.
Qed.

(** With the questions loaded, a call that throws has changed no
    answer. *)
Lemma selectOption_threw (e e' : engine) (q : Z) (o : string) (m : bool)
    (qs : list question) :
  data e = Some {| questions := Some qs |} →
  selectOption q o m e = Threw e' →
  selectedAnswers e' = selectedAnswers e.
Proof.
  intros Hd. unfold selectOption. destruct m.
  - destruct (selectedAnswers e !! q) as [[s|os]|] eqn:Hq; simpl.
    + destruct (String.eqb s "") eqn:Es.
      * rewrite lookup_insert_eq.
        by rewrite (renderSpecificQuestion_returns _ _ qs).
      * rewrite Hq.
        destruct (Js.str_indexOf s o >? -1); [by intros [= <-]|].
        destruct (String.length s <? 2)%nat; [by intros [= <-]|].
        by rewrite (renderSpecificQuestion_returns _ _ qs).
    + rewrite Hq. by rewrite (renderSpecificQuestion_returns _ _ qs).
    + rewrite lookup_insert_eq.
      by rewrite (renderSpecificQuestion_returns _ _ qs).
  - by rewrite (renderSpecificQuestion_returns _ _ qs).
Qed.

Lemma selectOption_other_answers (e : engine) (q q' : Z) (o : string)
    (m : bool) :
  q' ≠ q →
  selectedAnswers (final (selectOption q o m e)) !! q'
  = selectedAnswers e !! q'.
Proof.
  intros Hne. destruct (selectOption_cases e q o m) as [_ [->|[v ->]]];
    [done|]. by rewrite lookup_insert_ne.
Qed.

Lemma selectOption_other_render (e : engine) (q : Z) (o : string) (m : bool)
    (qu : question) :
  id qu ≠ q →
  renderQuestion (final (selectOption q o m e)) qu = renderQuestion e qu.
Proof.
  intros Hne. unfold renderQuestion.
  by rewrite (selectOption_other_answers e q (id qu) o m Hne).
Qed.

(** A click changes the answer of its own question only: the entry of
    every other question and the loaded data are as before, whether the
    call returns or throws. *)
Theorem selectOption_touches_one_question (e : engine) (q q' : Z)
    (o : string) (m : bool) :
  q' ≠ q →
  selectedAnswers (final (selectOption q o m e)) !! q'
  = selectedAnswers e !! q'
  ∧ data (final (selectOption q o m e)) = data e
  ∧ ∀ qu, id qu = q' →
      renderQuestion (final (selectOption q o m e)) qu = renderQuestion e qu.
Proof.
  intros Hne. destruct (selectOption_cases e q o m) as [Hd _].
  split; [by apply selectOption_other_answers|]. split; [exact Hd|].
  intros qu <-. by apply selectOption_other_render.
Qed.

Lemma selectOption_touches_one_question_witness :
  selectedAnswers (final (selectOption 2 "A" true answered_A)) !! 1
  = selectedAnswers answered_A !! 1.
Proof.
  apply (selectOption_touches_one_question answered_A 2 1 "A" true).
  discriminate.
Defined.

(** A single-select question has one selected option at a time: after
    a click on an option, that option is selected and no other is,
    whatever was selected before. *)
Theorem single_select_exclusive (e : engine) (q : Z) (o o' : string) :
  isSelected false
    (selectedAnswers (final (selectOption q o false e)) !! q) o' = true
  ↔ o' = o.
Proof.
  rewrite selectOption_single, lookup_insert_eq, isSelected_single.
  split; congruence.
Qed.

Lemma single_select_exclusive_witness :
  isSelected false
    (selectedAnswers (final (selectOption 1 "B" false answered_A)) !! 1) "B"
  = true.
Proof.
  apply (proj2 (single_select_exclusive answered_A 1 "B" "B")).
  reflexivity.
Defined.

Lemma arr_indexOf_from_last (n : Z) (os : list string) (o : string) :
  o ∉ os →
  Js.arr_indexOf_from n (os ++ [o]) o = n + Z.of_nat (length os).
Proof.
  revert n. induction os as [|x os IH]; intros n Hn; simpl.
  - rewrite String.eqb_refl. lia.
  - rewrite not_elem_of_cons in Hn. destruct Hn as [Hne Hn].
    destruct (String.eqb_spec x o) as [->|_]; [done|].
    rewrite IH by done. lia.
Qed.

(** A pushed id is spliced out by the next click on it. *)
Lemma multi_step_twice (os : list string) (o : string) :
  o ∉ os → (length os < 2)%nat → multi_step (multi_step os o) o = os.
Proof.
  intros Hn Hlen. rewrite (multi_step_add os o Hlen Hn).
  unfold multi_step, Js.arr_indexOf. rewrite arr_indexOf_from_last by done.
  replace (0 + Z.of_nat (length os) >? -1) with true
    by (symmetry; apply Z.gtb_lt; lia).
  replace (Z.to_nat (0 + Z.of_nat (length os))) with (length os) by lia.
  rewrite delete_take_drop, take_app_length.
  rewrite drop_ge by (rewrite length_app; simpl; lia).
  by rewrite app_nil_r.
Qed.

(** Two clicks on an unselected option of a multi-select question that
    still has room cancel: the array of the question is what it was (the
    empty array if the question had no entry), and every question renders
    as before the two clicks. *)
Theorem multi_double_click_restores (e : engine) (q : Z) (o : string)
    (os : list string) :
  (selectedAnswers e !! q = None ∧ os = [])
  ∨ (selectedAnswers e !! q = Some (Multi os) ∧ (o ∉ os)
     ∧ (length os < 2)%nat) →
  let e2 := final (selectOption q o true (final (selectOption q o true e))) in
  selectedAnswers e2 !! q = Some (Multi os)
  ∧ ∀ qu, renderQuestion e2 qu = renderQuestion e qu.
Proof.
  intros Hpre e2.
  assert (H1 : selectedAnswers (final (selectOption q o true e)) !! q
               = Some (Multi (multi_step os o))).
  { destruct Hpre as [[Hq ->]|(Hq & _ & _)].
    - unfold selectOption. rewrite Hq. simpl.
      rewrite lookup_insert_eq, renderSpecificQuestion_state. simpl.
      by rewrite lookup_insert_eq.
    - rewrite (selectOption_on_array e q o os Hq). by rewrite lookup_insert_eq. }
  assert (Hstep : multi_step (multi_step os o) o = os).
  { destruct Hpre as [[_ ->]|(_ & Hn & Hlen)].
    - apply multi_step_twice; [apply not_elem_of_nil|simpl; lia].
    - by apply multi_step_twice. }
  assert (H2 : selectedAnswers e2 !! q = Some (Multi os)).
  { subst e2. rewrite (selectOption_on_array _ q o _ H1).
    by rewrite lookup_insert_eq, Hstep. }
  split; [exact H2|]. intros qu.
  destruct (decide (id qu = q)) as [Hid|Hid].
  - unfold renderQuestion. rewrite Hid, H2. f_equal.
    apply list_fmap_ext. intros i opt _. unfold renderOption.
    assert (Hsel : isSelected (multiSelect qu) (Some (Multi os)) (o_id opt)
                   = isSelected (multiSelect qu) (selectedAnswers e !! q)
                       (o_id opt)); [|by rewrite Hsel].
    destruct Hpre as [[-> ->]|(-> & _)]; [|done].
    unfold isSelected. by destruct (multiSelect qu).
  - subst e2.
    rewrite (selectOption_other_render (final (selectOption q o true e))
               q o true qu Hid).
    by apply selectOption_other_render.
Qed.

Lemma multi_double_click_restores_witness :
  selectedAnswers
    (final (selectOption 2 "A" true
              (final (selectOption 2 "A" true (init sample_data))))) !! 2
  = Some (Multi []).
Proof.
  apply (multi_double_click_restores (init sample_data) 2 "A" []).
  left. split; reflexivity.
Defined.

(** *** What the page shows *)

Lemma filter_fmap_length {A B : Type} (f : B → bool) (g : A → B)
    (l : list A) :
  length (List.filter f (g <$> l)) = length (List.filter (λ x, f (g x)) l).
Proof.
  induction l as [|x l IH]; [done|].
  rewrite fmap_cons. cbn [List.filter].
  destruct (f (g x)); cbn [length]; by rewrite IH.
Qed.

Lemma filter_sublist_of {A : Type} (f : A → bool) (l : list A) :
  List.filter f l `sublist_of` l.
Proof.
  induction l as [|x l IH]; simpl; [done|].
  destruct (f x); by constructor.
Qed.

(** Among options with distinct ids, those whose id is in [os] are at
    most as many as [os] has ids. *)
Lemma selected_options_bound (opts : list OptionEntry) (sel : string → bool)
    (os : list string) :
  NoDup (o_id <$> opts) → (∀ x, sel x = true → x ∈ os) →
  (length (List.filter (λ o, sel (o_id o)) opts) ≤ length os)%nat.
Proof.
  intros Hnd Hsel.
  rewrite <- (length_fmap o_id (List.filter _ opts)).
  apply submseteq_length, NoDup_submseteq.
  - eapply sublist_NoDup; [exact Hnd|].
    apply fmap_sublist, filter_sublist_of.
  - intros x Hx. apply list_elem_of_fmap in Hx as (opt & -> & Hopt).
    apply list_elem_of_In, filter_In in Hopt as [_ Hopt]. by apply Hsel.
Qed.

(** However the options were clicked, a question whose options have
    distinct ids shows at most two options marked and explained when it
    is multi-select, and at most one when it is single-select. *)
Theorem at_most_two_explained (d : option kc_data) (cs : list click)
    (qu : question) :
  NoDup (o_id <$> options qu) →
  let shown :=
    List.filter ov_explained (qv_options (renderQuestion (run cs (init d)) qu)) in
  (length shown ≤ 2)%nat
  ∧ (multiSelect qu = false → (length shown ≤ 1)%nat)
  ∧ Forall (λ v, ov_mark v ≠ Neutral) shown.
Proof.
  intros Hnd shown. subst shown. unfold renderQuestion. simpl.
  set (e := run cs (init d)).
  set (v := selectedAnswers e !! id qu).
  assert (Hlen : ∀ n os, (∀ x, isSelected (multiSelect qu) v x = true → x ∈ os)
                  → (length os ≤ n)%nat →
                  (length (List.filter ov_explained
                             (renderOption (multiSelect qu) v <$> options qu))
                   ≤ n)%nat).
  { intros n os Hsel Hn. rewrite filter_fmap_length. simpl.
    etrans; [|exact Hn]. by apply selected_options_bound. }
  split; [|split].
  - destruct (multiSelect qu) eqn:Hm.
    + destruct v as [[s|os]|] eqn:Hv.
      * apply (Hlen 2%nat []); [discriminate|simpl; lia].
      * apply (Hlen 2%nat os).
        -- intros x Hx. by apply existsb_eqb_elem_of in Hx.
        -- by destruct (reachable_capped d cs (id qu) os Hv).
      * apply (Hlen 2%nat []); [discriminate|simpl; lia].
    + destruct v as [[s|os]|] eqn:Hv.
      * apply (Hlen 2%nat [s]); [|simpl; lia].
        intros x Hx. simpl in Hx. apply String.eqb_eq in Hx as ->.
        apply list_elem_of_here.
      * apply (Hlen 2%nat []); [discriminate|simpl; lia].
      * apply (Hlen 2%nat []); [discriminate|simpl; lia].
  - intros Hm. rewrite Hm in *.
    destruct v as [[s|os]|] eqn:Hv.
    + apply (Hlen 1%nat [s]); [|simpl; lia].
      intros x Hx. simpl in Hx. apply String.eqb_eq in Hx as ->.
      apply list_elem_of_here.
    + apply (Hlen 1%nat []); [discriminate|simpl; lia].
    + apply (Hlen 1%nat []); [discriminate|simpl; lia].
  - apply Forall_forall. intros ov Hov.
    apply list_elem_of_In, filter_In in Hov as [Hin Hex].
    apply list_elem_of_In, list_elem_of_fmap in Hin as (opt & -> & _).
    unfold renderOption in *. simpl in *. rewrite Hex.
    by destruct (isCorrect opt).
Qed.

Lemma at_most_two_explained_witness :
  (length
     (List.filter ov_explained
        (qv_options
           (renderQuestion
              (run [mkClick 2 "A" true; mkClick 2 "B" true; mkClick 2 "C" true]
                 (init sample_data))
              (mkQuestion 2 "Which two are storage services?" true
                 [mkOption "A" "S3" true; mkOption "B" "EBS" true;
                  mkOption "C" "IAM" false] None))))
   ≤ 2)%nat.
Proof.
  apply (at_most_two_explained sample_data
           [mkClick 2 "A" true; mkClick 2 "B" true; mkClick 2 "C" true]
           (mkQuestion 2 "Which two are storage services?" true
              [mkOption "A" "S3" true; mkOption "B" "EBS" true;
               mkOption "C" "IAM" false] None)).
  simpl. repeat (apply NoDup_cons; split);
    [rewrite !elem_of_cons, elem_of_nil; intros [H|[H|[]]]; discriminate H
    |rewrite !elem_of_cons, elem_of_nil; intros [H|[]]; discriminate H
    |apply not_elem_of_nil
    |apply NoDup_nil_2].
Defined.

Lemma renderQuestion_same_answer (e e' : engine) (qu : question) :
  selectedAnswers e' !! id qu = selectedAnswers e !! id qu →
  renderQuestion e' qu = renderQuestion e qu.
Proof. intros H. unfold renderQuestion. by rewrite H. Qed.

Lemma replace_first_card_render (e e' : engine) (q : Z) (qs : list question)
    (target : question) :
  NoDup (id <$> qs) →
  List.find (λ qu, id qu =? q) qs = Some target →
  (∀ qu, id qu ≠ q → renderQuestion e' qu = renderQuestion e qu) →
  replace_first_card q (renderQuestion e' target) (renderQuestion e <$> qs)
  = renderQuestion e' <$> qs.
Proof.
  intros Hnd Hfind Hother. induction qs as [|qu qs IH]; [done|].
  rewrite fmap_cons in Hnd. apply NoDup_cons in Hnd as [Hqu Hnd].
  simpl in Hfind. rewrite !fmap_cons. simpl.
  destruct (Z.eqb_spec (id qu) q) as [Heq|Hne].
  - injection Hfind as <-. f_equal.
    apply list_fmap_ext. intros i qu' Hi. symmetry. apply Hother.
    intros Hq'. apply Hqu. rewrite Heq, <- Hq'.
    apply list_elem_of_fmap. exists qu'. split; [done|].
    by eapply list_elem_of_lookup_2.
  - rewrite (Hother qu Hne). f_equal. by apply IH.
Qed.

Lemma find_none_ids (q : Z) (qs : list question) :
  List.find (λ qu, id qu =? q) qs = None → ∀ qu, qu ∈ qs → id qu ≠ q.
Proof.
  induction qs as [|x qs IH]; intros Hf qu Hin.
  - by apply elem_of_nil in Hin.
  - simpl in Hf. destruct (Z.eqb_spec (id x) q) as [|Hne]; [discriminate|].
    apply elem_of_cons in Hin as [->|Hin]; [done|]. by apply IH.
Qed.

(** One click keeps the page equal to a full rendering. *)
Lemma click_option_full_render (c : click) (p : page) (qs : list question) :
  NoDup (id <$> qs) →
  data (eng p) = Some {| questions := Some qs |} →
  container p = QuestionCards (renderQuestion (eng p) <$> qs) →
  data (eng (click_option c p)) = Some {| questions := Some qs |}
  ∧ container (click_option c p)
    = QuestionCards (renderQuestion (eng (click_option c p)) <$> qs).
Proof.
  intros Hnd Hd Hc. unfold click_option.
  pose proof (selectOption_cases (eng p) (c_question c) (c_option c)
                (c_multi c)) as [Hd' _].
  pose proof (selectOption_other_render (eng p) (c_question c)
                (c_option c) (c_multi c)) as Hfr.
  destruct (selectOption _ _ _ (eng p)) as [e'|e'] eqn:Hsel; simpl in *.
  - split; [congruence|]. unfold rerender. rewrite Hd', Hd, Hc.
    assert (Hother : ∀ qu, id qu ≠ c_question c →
              renderQuestion e' qu = renderQuestion (eng p) qu).
    { intros qu Hne. by apply Hfr. }
    destruct (List.find _ qs) as [target|] eqn:Hfind.
    + rewrite (replace_first_card_render (eng p) e' _ qs target
                 Hnd Hfind Hother).
      destruct (existsb _ _) eqn:Hex; [done|].
      exfalso. apply find_some in Hfind as [Hin Hid].
      assert (existsb (λ card, qv_id card =? c_question c)
                (renderQuestion (eng p) <$> qs) = true); [|congruence].
      apply existsb_exists. exists (renderQuestion (eng p) target).
      split; [|exact Hid].
      apply list_elem_of_In, list_elem_of_fmap. exists target.
      split; [done|]. by apply list_elem_of_In.
    + f_equal. apply list_fmap_ext. intros i qu Hi. symmetry. apply Hother.
      eapply find_none_ids; [exact Hfind|]. by eapply list_elem_of_lookup_2.
  - split; [congruence|]. rewrite Hc. f_equal.
    apply list_fmap_ext. intros i qu _. symmetry.
    apply renderQuestion_same_answer.
    by rewrite (selectOption_threw (eng p) e' _ _ _ qs Hd Hsel).
Qed.

Lemma shuffle_array_ids (rnd : nat → draw) (qs : list question) :
  id <$> shuffle_array rnd qs ≡ₚ id <$> qs.
Proof.
  unfold shuffle_array. rewrite renumber_ids. by rewrite shuffle_loop_perm.
Qed.

Lemma clicks_full_render (cs : list click) (p : page) (qs : list question) :
  NoDup (id <$> qs) →
  data (eng p) = Some {| questions := Some qs |} →
  container p = QuestionCards (renderQuestion (eng p) <$> qs) →
  data (eng (clicks cs p)) = Some {| questions := Some qs |}
  ∧ container (clicks cs p)
    = QuestionCards (renderQuestion (eng (clicks cs p)) <$> qs).
Proof.
  intros Hnd. revert p. induction cs as [|c cs IH]; intros p Hd Hc; [done|].
  destruct (click_option_full_render c p qs Hnd Hd Hc) as [Hd' Hc'].
  simpl. by apply IH.
Qed.

Lemma loadFromJSON_loaded (qs : list question) (jsonUrl : string)
    (rnd : nat → draw) (p : page) :
  let p' := loadFromJSON (Some {| questions := Some qs |}) jsonUrl rnd p in
  data (eng p') = Some {| questions := Some (shuffle_array rnd qs) |}
  ∧ selectedAnswers (eng p') = selectedAnswers (eng p)
  ∧ container p'
    = QuestionCards (renderQuestion (eng p') <$> shuffle_array rnd qs).
Proof. done. Qed.

(** Re-rendering one card is as good as re-rendering the page: when the
    question ids of the manifest are distinct, after loading and any
    sequence of clicks the container holds exactly what a full
    [renderQuestions] of the current state would write, one card per
    question. *)
Theorem incremental_render_is_full_render (qs : list question)
    (jsonUrl : string) (rnd : nat → draw) (cs : list click) :
  NoDup (id <$> qs) →
  let p := clicks cs
             (loadFromJSON (Some {| questions := Some qs |}) jsonUrl rnd
                blank) in
  container p = container (renderQuestions p)
  ∧ ∃ cards, container p = QuestionCards cards ∧ length cards = length qs.
Proof.
  intros Hnd p.
  destruct (loadFromJSON_loaded qs jsonUrl rnd blank) as (Hd0 & _ & Hc0).
  assert (Hnd' : NoDup (id <$> shuffle_array rnd qs))
    by (by rewrite shuffle_array_ids).
  destruct (clicks_full_render cs _ _ Hnd' Hd0 Hc0) as [Hd Hc].
  fold p in Hd, Hc. split.
  - unfold renderQuestions. by rewrite Hd.
  - eexists. split; [exact Hc|]. rewrite length_fmap.
    unfold shuffle_array, renumber.
    by rewrite length_imap, shuffle_loop_perm.
Qed.

Lemma incremental_render_is_full_render_witness :
  container
    (clicks [mkClick 2 "A" true; mkClick 1 "B" false]
       (loadFromJSON (Some {| questions := Some sample_questions |})
          "data/kc.json" sample_rnd blank))
  = container
      (renderQuestions
         (clicks [mkClick 2 "A" true; mkClick 1 "B" false]
            (loadFromJSON (Some {| questions := Some sample_questions |})
               "data/kc.json" sample_rnd blank))).
Proof.
  apply (incremental_render_is_full_render sample_questions "data/kc.json"
           sample_rnd [mkClick 2 "A" true; mkClick 1 "B" false]).
  simpl. repeat (apply NoDup_cons; split);
    [rewrite !elem_of_cons, elem_of_nil; intros [H|[H|[]]]; discriminate H
    |rewrite !elem_of_cons, elem_of_nil; intros [H|[]]; discriminate H
    |apply not_elem_of_nil
    |apply NoDup_nil_2].
Defined.

(** Right after a successful load no option is marked or explained, the
    cards are numbered 1, 2, ..., N in page order, never by question id,
    and they are the cards of the manifest's questions.  A failed load
    shows the error panel; a manifest without a question list shows the
    "no questions" message. *)
Theorem loadFromJSON_fresh_page (qs : list question) (jsonUrl : string)
    (rnd : nat → draw) :
  (∃ cards,
     container (loadFromJSON (Some {| questions := Some qs |}) jsonUrl rnd
                  blank) = QuestionCards cards
     ∧ qv_number <$> cards = Z.of_nat <$> seq 1 (length qs)
     ∧ qv_id <$> cards ≡ₚ id <$> qs
     ∧ Forall (λ card,
                 Forall (λ v, ov_mark v = Neutral ∧ ov_explained v = false)
                   (qv_options card)) cards)
  ∧ container (loadFromJSON None jsonUrl rnd blank) = ErrorPanel jsonUrl
  ∧ container (loadFromJSON (Some {| questions := None |}) jsonUrl rnd blank)
    = NoQuestions.
Proof.
  split; [|done].
  destruct (loadFromJSON_loaded qs jsonUrl rnd blank) as (Hd & Hsa & Hc).
  eexists. split; [exact Hc|].
  set (e := eng (loadFromJSON (Some {| questions := Some qs |}) jsonUrl rnd
                   blank)) in *.
  split; [|split].
  - rewrite <- list_fmap_compose.
    transitivity ((λ o : option nat, from_option Z.of_nat 0 o)
                    <$> (displayNumber <$> shuffle_array rnd qs)).
    + rewrite <- list_fmap_compose. apply list_eq. intros i.
      rewrite !list_lookup_fmap.
      destruct (shuffle_array rnd qs !! i) as [qu|] eqn:Hi; [|done].
      simpl. f_equal.
      assert (Hdn : displayNumber qu = Some (S i)).
      { unfold shuffle_array, renumber in Hi.
        rewrite list_lookup_imap in Hi.
        destruct (shuffle_loop rnd (length qs - 1) qs !! i); [|done].
        simpl in Hi. injection Hi as <-. simpl. f_equal. lia. }
      by rewrite Hdn.
    + unfold shuffle_array. rewrite renumber_numbers, shuffle_loop_perm.
      by rewrite <- list_fmap_compose.
  - rewrite <- list_fmap_compose.
    change (qv_id ∘ renderQuestion e) with id.
    apply shuffle_array_ids.
  - apply Forall_forall. intros card Hcard.
    apply list_elem_of_fmap in Hcard as (qu & -> & _).
    apply Forall_forall. intros v Hv.
    unfold renderQuestion in Hv. cbn [qv_options] in Hv.
    apply list_elem_of_fmap in Hv as (opt & -> & _).
    assert (Hnone : selectedAnswers e !! id qu = None).
    { rewrite Hsa. apply lookup_empty. }
    unfold renderOption. rewrite Hnone.
    unfold isSelected. by destruct (multiSelect qu).
Qed.

(** Shuffling moves whole questions: text, options and kind travel with
    the id; a list of fewer than two questions keeps its order; without
    data or without a question list nothing happens. *)
Theorem shuffleQuestions_keeps_content (rnd : nat → draw)
    (qs : list question) (sa : gmap Z answer) :
  (λ q, (id q, q_text q, multiSelect q, options q)) <$> shuffle_array rnd qs
  ≡ₚ (λ q, (id q, q_text q, multiSelect q, options q)) <$> qs
  ∧ ((length qs ≤ 1)%nat → id <$> shuffle_array rnd qs = id <$> qs)
  ∧ shuffleQuestions rnd (mkEngine None sa) = mkEngine None sa
  ∧ shuffleQuestions rnd (mkEngine (Some (mkData None)) sa)
    = mkEngine (Some (mkData None)) sa.
Proof.
  split; [|split; [|done]].
  - unfold shuffle_array.
    assert (Heq : ∀ l,
              (λ q, (id q, q_text q, multiSelect q, options q)) <$> renumber l
              = (λ q, (id q, q_text q, multiSelect q, options q)) <$> l).
    { intros l. unfold renumber. apply list_eq. intros k.
      rewrite !list_lookup_fmap, list_lookup_imap. by destruct (l !! k). }
    rewrite Heq. by rewrite shuffle_loop_perm.
  - intros Hlen. unfold shuffle_array. rewrite renumber_ids.
    destruct qs as [|q [|q' qs]]; simpl in *; [done|done|lia].
Qed.

Lemma shuffleQuestions_keeps_content_witness :
  id <$> shuffle_array sample_rnd [mkQuestion 7 "Only one" false [] None]
  = id <$> [mkQuestion 7 "Only one" false [] None].
Proof.
  apply (shuffleQuestions_keeps_content sample_rnd
           [mkQuestion 7 "Only one" false [] None] ∅).
  simpl. lia.
Defined.

(** *** Explanations *)

Lemma text_block_section (sec : section) (v : option string) :
  block_section <$> text_block sec v `sublist_of` [sec].
Proof.
  unfold text_block. destruct v as [s|]; [|apply sublist_nil_l].
  destruct (String.eqb s ""); [apply sublist_nil_l|done].
Qed.

Lemma list_block_section (sec : section) (v : option (list string)) :
  block_section <$> list_block sec v `sublist_of` [sec].
Proof.
  unfold list_block. destruct v as [[|x l]|]; try apply sublist_nil_l. done.
Qed.

Lemma links_block_section (v : option (list link)) :
  block_section <$> links_block v `sublist_of` [LearnMore].
Proof.
  unfold links_block. destruct v as [[|x l]|]; try apply sublist_nil_l. done.
Qed.

(** The blocks of an explanation follow the fixed order of the
    sections, each section at most once; an explanation without fields
    renders no block, and the learn-more links, when there are any, are
    the last block. *)
Theorem renderExplanation_order (isCorrect : bool) (exp : Explanation) :
  block_section <$> ev_blocks (renderExplanation isCorrect exp)
  `sublist_of` section_order
  ∧ ev_blocks (renderExplanation isCorrect no_explanation) = []
  ∧ (∀ x l, learnMore exp = Some (x :: l) →
       last (ev_blocks (renderExplanation isCorrect exp))
       = Some (LinksBlock (x :: l)))
  ∧ ev_correct (renderExplanation isCorrect exp) = isCorrect.
Proof.
  split; [|split; [done|split; [|done]]].
  - unfold renderExplanation, section_order. cbn [ev_blocks].
    rewrite !fmap_app.
    repeat match goal with
    | |- sublist (_ ++ _) (?s :: ?l) =>
        apply (sublist_app _ [s] _ l);
          [first [apply text_block_section | apply list_block_section]|]
    end.
    apply links_block_section.
  - intros x l Hl. unfold renderExplanation. cbn [ev_blocks].
    rewrite Hl. cbn [links_block].
    rewrite !app_assoc. apply last_snoc.
Qed.

Lemma renderExplanation_order_witness :
  last (ev_blocks (renderExplanation true explained))
  = Some (LinksBlock [mkLink "EC2 docs" "https://docs.aws.amazon.com/ec2/"]).
Proof.
  apply (renderExplanation_order true explained). reflexivity.
Defined.

End KnowledgeCheckProofs.
